(** * Software FIFO of the ASF services (fifo.h): model and properties

    The driver keeps a caller-allocated array and two 8-bit indices that
    range over twice the number of slots ("double-index range"), so that a
    FIFO of [size] slots can hold [size] elements.

    The C functions are embedded as Rocq functions over a descriptor
    record.  Unsigned 8-bit fields are integers with the conversion to
    [uint8_t] written out ([to_uint8]); the bit operations are those of
    [Z].  The element array is a list of cells; an access outside the
    array, undefined in C, is the result [None]. *)

From Stdlib Require Import ZArith Lia List Bool.
From stdpp Require Import base option list.

Local Open Scope Z_scope.

(** ** Error codes *)

Inductive fifo_status : Set :=
| FIFO_OK
| FIFO_ERROR_OVERFLOW
| FIFO_ERROR_UNDERFLOW
| FIFO_ERROR.

(** The values of the anonymous [enum] (the type of the functions'
    results is [int]). *)
Definition status_code (s : fifo_status) : Z :=
  match s with
  | FIFO_OK => 0
  | FIFO_ERROR_OVERFLOW => 1
  | FIFO_ERROR_UNDERFLOW => 2
  | FIFO_ERROR => 3
  end.

(** ** Integer conversions *)

(** Conversion of an integer value to an unsigned type of [bits] bits. *)
Definition to_uint (bits : Z) (x : Z) : Z := x mod 2 ^ bits.

Definition to_uint8 (x : Z) : Z := to_uint 8 x.

(** The three views of the [buffer] union: the width of one element. *)
Inductive width : Set := U8 | U16 | U32.

Definition width_bits (w : width) : Z :=
  match w with
  | U8 => 8
  | U16 => 16
  | U32 => 32
  end.

(** ** The descriptor

    [buffer] stands for the array the pointer of the union refers to, one
    cell per element (each cell holds a value of the element type the FIFO
    is used at).  The other fields are the [uint8_t] fields of
    [struct fifo_desc]. *)
Record fifo_desc : Set := mk_fifo_desc {
  buffer : list Z;
  read_index : Z;
  write_index : Z;
  size : Z;
  mask : Z
}.

(** ** Array accesses *)

Definition in_bounds (buf : list Z) (i : Z) : bool :=
  (0 <=? i) && (i <? Z.of_nat (length buf)).

(** [buf[i]] as an rvalue. *)
Definition load (buf : list Z) (i : Z) : option Z :=
  if in_bounds buf i then buf !! Z.to_nat i else None.

(** [buf[i] = v] for an array of elements of width [w]: the value is
    converted to the element type. *)
Definition store (w : width) (buf : list Z) (i : Z) (v : Z) : option (list Z) :=
  if in_bounds buf i
  then Some (<[Z.to_nat i := to_uint (width_bits w) v]> buf)
  else None.

(** ** Occupancy queries *)

Definition fifo_get_used_size (f : fifo_desc) : Z :=
  to_uint8 (Z.land (write_index f - read_index f) (mask f)).

Definition fifo_get_free_size (f : fifo_desc) : Z :=
  to_uint8 (size f - fifo_get_used_size f).

Definition fifo_is_empty (f : fifo_desc) : bool :=
  write_index f =? read_index f.

Definition fifo_is_full (f : fifo_desc) : bool :=
  fifo_get_used_size f =? size f.

(** ** Push

    The [barrier()] that precedes the update of the index constrains the
    order of the two stores for an observer in another context; it does not
    change what the call computes and has no counterpart here. *)

Definition fifo_push_nocheck (w : width) (f : fifo_desc) (item : Z)
  : option fifo_desc :=
  let write_index0 := write_index f in
  buf ← store w (buffer f) (Z.land write_index0 (Z.shiftr (mask f) 1)) item;
  let write_index1 := to_uint8 (Z.land (write_index0 + 1) (mask f)) in
  Some {| buffer := buf;
          read_index := read_index f;
          write_index := write_index1;
          size := size f;
          mask := mask f |}.

Definition fifo_push (w : width) (f : fifo_desc) (item : Z)
  : option (fifo_status * fifo_desc) :=
  if fifo_is_full f then Some (FIFO_ERROR_OVERFLOW, f)
  else
    let write_index0 := write_index f in
    buf ← store w (buffer f) (Z.land write_index0 (Z.shiftr (mask f) 1)) item;
    let write_index1 := to_uint8 (Z.land (write_index0 + 1) (mask f)) in
    Some (FIFO_OK,
          {| buffer := buf;
             read_index := read_index f;
             write_index := write_index1;
             size := size f;
             mask := mask f |}).

(** ** Pull *)

Definition fifo_pull_nocheck (w : width) (f : fifo_desc)
  : option (Z * fifo_desc) :=
  let read_index0 := read_index f in
  item ← load (buffer f) (Z.land read_index0 (Z.shiftr (mask f) 1));
  let read_index1 := to_uint8 (Z.land (read_index0 + 1) (mask f)) in
  Some (item,
        {| buffer := buffer f;
           read_index := read_index1;
           write_index := write_index f;
           size := size f;
           mask := mask f |}).

(** The checked pull writes through its [item] pointer; the argument
    [item] is the content of the pointed cell before the call and the
    second component of the result its content after the call. *)
Definition fifo_pull (w : width) (f : fifo_desc) (item : Z)
  : option (fifo_status * Z * fifo_desc) :=
  if fifo_is_empty f then Some (FIFO_ERROR_UNDERFLOW, item, f)
  else
    let read_index0 := read_index f in
    item' ← load (buffer f) (Z.land read_index0 (Z.shiftr (mask f) 1));
    let read_index1 := to_uint8 (Z.land (read_index0 + 1) (mask f)) in
    Some (FIFO_OK, item',
          {| buffer := buffer f;
             read_index := read_index1;
             write_index := write_index f;
             size := size f;
             mask := mask f |}).

(** ** Peek and flush *)

Definition fifo_peek (w : width) (f : fifo_desc) : option Z :=
  load (buffer f) (Z.land (read_index f) (Z.shiftr (mask f) 1)).

Definition fifo_flush (f : fifo_desc) : fifo_desc :=
  {| buffer := buffer f;
     read_index := 0;
     write_index := 0;
     size := size f;
     mask := mask f |}.

(** ** The functions of the header, one per element width *)

Definition fifo_push_uint8_nocheck := fifo_push_nocheck U8.
Definition fifo_push_uint16_nocheck := fifo_push_nocheck U16.
Definition fifo_push_uint32_nocheck := fifo_push_nocheck U32.
Definition fifo_push_uint8 := fifo_push U8.
Definition fifo_push_uint16 := fifo_push U16.
Definition fifo_push_uint32 := fifo_push U32.
Definition fifo_pull_uint8_nocheck := fifo_pull_nocheck U8.
Definition fifo_pull_uint16_nocheck := fifo_pull_nocheck U16.
Definition fifo_pull_uint32_nocheck := fifo_pull_nocheck U32.
Definition fifo_pull_uint8 := fifo_pull U8.
Definition fifo_pull_uint16 := fifo_pull U16.
Definition fifo_pull_uint32 := fifo_pull U32.
Definition fifo_peek_uint8 := fifo_peek U8.
Definition fifo_peek_uint16 := fifo_peek U16.
Definition fifo_peek_uint32 := fifo_peek U32.

(** ** Initialization *)

Definition is_power_of_two (n : Z) : bool :=
  (0 <? n) && (n =? 2 ^ Z.log2 n).

Definition valid_capacity (n : Z) : bool :=
  is_power_of_two n && (n <=? 128).

(** Modelled from the spec: the header only declares [fifo_init]; its body
    is not among the sources.  The spec's initialization requires a
    capacity that is a power of two and at most 128 and fails otherwise
    (the header's [FIFO_ERROR]); on success it sets both indices to 0 and
    records the storage, the capacity and the mask [2 * capacity - 1]. *)
Definition fifo_init (f : fifo_desc) (buf : list Z) (sz : Z)
  : fifo_status * fifo_desc :=
  if valid_capacity sz
  then (FIFO_OK,
        {| buffer := buf;
           read_index := 0;
           write_index := 0;
           size := sz;
           mask := 2 * sz - 1 |})
  else (FIFO_ERROR, f).

(** The descriptor a successful [fifo_init] leaves. *)
Definition fresh (buf : list Z) (n : Z) : fifo_desc :=
  {| buffer := buf; read_index := 0; write_index := 0;
     size := n; mask := 2 * n - 1 |}.

(** ** Sequences of checked operations

    A caller that issues checked pushes and pulls one after the other,
    with one local variable for the [item] out-parameter of the pulls. *)

Inductive op : Set :=
| Push (item : Z)
| Pull.

(** What the caller observes of one call: the status and, for a pull, the
    content of its [item] variable after the call. *)
Inductive outcome : Set :=
| Pushed (s : fifo_status)
| Pulled (s : fifo_status) (item : Z).

Fixpoint run (w : width) (ops : list op) (f : fifo_desc) (item : Z)
  : option (list outcome * fifo_desc * Z) :=
  match ops with
  | [] => Some ([], f, item)
  | Push v :: ops' =>
      '(s, f1) ← fifo_push w f v;
      '(out, f2, item2) ← run w ops' f1 item;
      Some (Pushed s :: out, f2, item2)
  | Pull :: ops' =>
      '(s, item1, f1) ← fifo_pull w f item;
      '(out, f2, item2) ← run w ops' f1 item1;
      Some (Pulled s item1 :: out, f2, item2)
  end.

(** The value an element has once stored in a slot of width [w]. *)
Definition stored (w : width) (v : Z) : Z := to_uint (width_bits w) v.

Definition is_element (w : width) (v : Z) : Prop := 0 <= v < 2 ^ width_bits w.

Definition pushes_elements (w : width) (o : op) : Prop :=
  match o with
  | Push v => is_element w v
  | Pull => True
  end.

(** The operation with the pushed value as the slot keeps it. *)
Definition stored_op (w : width) (o : op) : op :=
  match o with
  | Push v => Push (stored w v)
  | Pull => Pull
  end.

(** ** The queue of the spec

    The reference the driver is compared with: a queue of at most [n]
    elements, first in first out.  A push on a queue of [n] elements
    reports an overflow and a pop on the empty queue an underflow; both
    leave the queue as it is. *)

Definition queue_push (n : Z) (q : list Z) (v : Z) : fifo_status * list Z :=
  if Z.of_nat (length q) <? n then (FIFO_OK, q ++ [v])
  else (FIFO_ERROR_OVERFLOW, q).

Definition queue_pop (q : list Z) (item : Z) : fifo_status * Z * list Z :=
  match q with
  | [] => (FIFO_ERROR_UNDERFLOW, item, [])
  | x :: q' => (FIFO_OK, x, q')
  end.

Fixpoint queue_run (n : Z) (ops : list op) (q : list Z) (item : Z)
  : list outcome * list Z * Z :=
  match ops with
  | [] => ([], q, item)
  | Push v :: ops' =>
      let '(s, q1) := queue_push n q v in
      let '(out, q2, item2) := queue_run n ops' q1 item in
      (Pushed s :: out, q2, item2)
  | Pull :: ops' =>
      let '(s, item1, q1) := queue_pop q item in
      let '(out, q2, item2) := queue_run n ops' q1 item1 in
      (Pulled s item1 :: out, q2, item2)
  end.

(** ** Invariant and abstraction *)

(** The capacities [fifo_init] accepts. *)
Definition capacity (n : Z) : Prop := ∃ k, 0 <= k <= 7 ∧ n = 2 ^ k.

Record fifo_inv (n : Z) (f : fifo_desc) : Prop := mk_fifo_inv {
  inv_size : size f = n;
  inv_mask : mask f = 2 * n - 1;
  inv_read : 0 <= read_index f < 2 * n;
  inv_write : 0 <= write_index f < 2 * n;
  inv_used : (write_index f - read_index f) mod (2 * n) <= n;
  inv_buffer : n <= Z.of_nat (length (buffer f))
}.

(** The cell of the [i]-th oldest element. *)
Definition cell (f : fifo_desc) (i : nat) : Z :=
  nth (Z.to_nat ((read_index f + Z.of_nat i) mod size f)) (buffer f) 0.

(** The elements the FIFO holds, oldest first. *)
Definition contents (f : fifo_desc) : list Z :=
  cell f <$> seq 0 (Z.to_nat (fifo_get_used_size f)).

(** Closed forms of the descriptor after a successful push and after a
    successful pull, for a FIFO of [n] slots; the theorems below show that
    the driver computes them. *)
Definition after_push (n : Z) (w : width) (f : fifo_desc) (v : Z) : fifo_desc :=
  {| buffer := <[Z.to_nat (write_index f mod n) := stored w v]> (buffer f);
     read_index := read_index f;
     write_index := (write_index f + 1) mod (2 * n);
     size := size f;
     mask := mask f |}.

Definition after_pull (n : Z) (f : fifo_desc) : fifo_desc :=
  {| buffer := buffer f;
     read_index := (read_index f + 1) mod (2 * n);
     write_index := write_index f;
     size := size f;
     mask := mask f |}.

(** ** Reachable descriptors

    One call of the driver that the caller is allowed to make: a checked
    push or pull, an unchecked one whose precondition holds, or a flush. *)
Inductive step (w : width) (f : fifo_desc) : fifo_desc → Prop :=
| step_push item s f' :
    fifo_push w f item = Some (s, f') → step w f f'
| step_pull item s item' f' :
    fifo_pull w f item = Some (s, item', f') → step w f f'
| step_push_nocheck item f' :
    fifo_is_full f = false →
    fifo_push_nocheck w f item = Some f' → step w f f'
| step_pull_nocheck item f' :
    fifo_is_empty f = false →
    fifo_pull_nocheck w f = Some (item, f') → step w f f'
| step_flush : step w f (fifo_flush f).

Inductive reachable (w : width) (buf : list Z) (n : Z) : fifo_desc → Prop :=
| reachable_init : reachable w buf n (fresh buf n)
| reachable_step f f' :
    reachable w buf n f → step w f f' → reachable w buf n f'.

(** ** What a caller observes of a run *)

Definition is_push_ok (o : outcome) : bool :=
  match o with
  | Pushed FIFO_OK => true
  | _ => false
  end.

Definition is_pull_ok (o : outcome) : bool :=
  match o with
  | Pulled FIFO_OK _ => true
  | _ => false
  end.

(** The number of calls of a run that returned [FIFO_OK], pushes and
    pulls apart. *)
Definition accepted_pushes (out : list outcome) : Z :=
  Z.of_nat (length (List.filter is_push_ok out)).

Definition accepted_pulls (out : list outcome) : Z :=
  Z.of_nat (length (List.filter is_pull_ok out)).

(** A successful pull delivered a value of the element type. *)
Definition delivers_element (w : width) (o : outcome) : Prop :=
  match o with
  | Pulled FIFO_OK x => is_element w x
  | _ => True
  end.

(** * The sampling loop of main.c

    [HFSampleLoop] is the callback of the timer overflow interrupt.  It
    works on the globals of the file: the sample array and three
    counters, all of type [int] (the declarations have no type), and a
    flag.  The read of the converter is not written yet, so that the
    sample [result] is the constant 0. *)

Definition MAXBUFFER : Z := 2048.
Definition CHANNELS : Z := 4.
Definition SAMPLERATE : Z := 48000.
Definition OVERSAMPLING : Z := 4.

(** Conversion of an integer value to [int16_t]. *)
Definition to_int16 (x : Z) : Z := (x + 2 ^ 15) mod 2 ^ 16 - 2 ^ 15.

(** The globals.  The counters are integers; the theorems show that from
    the initial values they stay far below the range of [int], so that the
    increments never overflow. *)
Record sampler : Set := mk_sampler {
  buf : list (list Z);
  railFull : bool;
  curChannel : Z;
  writePos : Z;
  overSamplePos : Z
}.

(** [b[c][p]] as an rvalue and [b[c][p] = v]; [None] outside the array. *)
Definition load2 (b : list (list Z)) (c p : Z) : option Z :=
  if 0 <=? c then row ← b !! Z.to_nat c; load row p else None.

Definition store2 (b : list (list Z)) (c p v : Z) : option (list (list Z)) :=
  if 0 <=? c then
    row ← b !! Z.to_nat c;
    if in_bounds row p
    then Some (<[Z.to_nat c := <[Z.to_nat p := v]> row]> b)
    else None
  else None.

Definition HFSampleLoop (s : sampler) : option sampler :=
  let result := 0 in
  b ← (if overSamplePos s =? 0
       then store2 (buf s) (curChannel s) (writePos s) result
       else
         old ← load2 (buf s) (curChannel s) (writePos s);
         store2 (buf s) (curChannel s) (writePos s) (to_int16 (old + result)));
  let curChannel1 := curChannel s + 1 in
  if curChannel1 =? CHANNELS then
    let overSamplePos1 := overSamplePos s + 1 in
    if overSamplePos1 =? OVERSAMPLING then
      let writePos1 := writePos s + 1 in
      Some {| buf := b;
              railFull := true;
              curChannel := 0;
              writePos := if MAXBUFFER <=? writePos1 then 0 else writePos1;
              overSamplePos := 0 |}
    else
      Some {| buf := b;
              railFull := railFull s;
              curChannel := 0;
              writePos := writePos s;
              overSamplePos := overSamplePos1 |}
  else
    Some {| buf := b;
            railFull := railFull s;
            curChannel := curChannel1;
            writePos := writePos s;
            overSamplePos := overSamplePos s |}.

(** [k] interrupts in a row. *)
Fixpoint interrupts (k : nat) (s : sampler) : option sampler :=
  match k with
  | O => Some s
  | S k' => s' ← interrupts k' s; HFSampleLoop s'
  end.

(** The array of zeros: static storage without an initializer. *)
Definition zero_buf : list (list Z) :=
  replicate (Z.to_nat CHANNELS) (replicate (Z.to_nat MAXBUFFER) 0).

(** The globals when [main] starts. *)
Definition sampler_start : sampler :=
  {| buf := zero_buf;
     railFull := false;
     curChannel := 0;
     writePos := 0;
     overSamplePos := 0 |}.

(** ** The scenarios of the spec, run on the model *)

Example scenario_capacity_4 :
  run U8 [Push 1; Push 2; Push 3; Push 4; Push 5; Pull; Pull; Pull; Pull; Pull]
      (fresh [0; 0; 0; 0] 4) 0
  = Some ([Pushed FIFO_OK; Pushed FIFO_OK; Pushed FIFO_OK; Pushed FIFO_OK;
           Pushed FIFO_ERROR_OVERFLOW;
           Pulled FIFO_OK 1; Pulled FIFO_OK 2; Pulled FIFO_OK 3;
           Pulled FIFO_OK 4; Pulled FIFO_ERROR_UNDERFLOW 4],
          {| buffer := [1; 2; 3; 4]; read_index := 4; write_index := 4;
             size := 4; mask := 7 |}, 4).
Proof. reflexivity. Qed.

Example scenario_capacity_1 :
  run U16 [Push 7; Pull; Push 9; Pull] (fresh [0] 1) 0
  = Some ([Pushed FIFO_OK; Pulled FIFO_OK 7; Pushed FIFO_OK; Pulled FIFO_OK 9],
          {| buffer := [9]; read_index := 0; write_index := 0;
             size := 1; mask := 1 |}, 9).
Proof. reflexivity. Qed.

Example scenario_full_is_full :
  (λ f, (fifo_is_full f, fifo_is_empty f, fifo_get_used_size f,
         fifo_get_free_size f, contents f))
    <$> (snd ∘ fst <$> run U8 [Push 1; Push 2; Push 3; Push 4] (fresh [0; 0; 0; 0] 4) 0)
  = Some (true, false, 4, 0, [1; 2; 3; 4]).
Proof. reflexivity. Qed.

(** The indices run over twice the capacity and wrap there. *)
Example indices_wrap :
  run U8 [Push 1; Pull; Push 2; Pull; Push 3; Pull; Push 4; Pull; Push 5]
      (fresh [0; 0] 2) 0
  = Some ([Pushed FIFO_OK; Pulled FIFO_OK 1; Pushed FIFO_OK; Pulled FIFO_OK 2;
           Pushed FIFO_OK; Pulled FIFO_OK 3; Pushed FIFO_OK; Pulled FIFO_OK 4;
           Pushed FIFO_OK],
          {| buffer := [5; 4]; read_index := 0; write_index := 1;
             size := 2; mask := 3 |}, 4).
Proof. reflexivity. Qed.

(** A store converts the item to the element type. *)
Example push_truncates :
  fifo_push_uint8 (fresh [0] 1) 300
  = Some (FIFO_OK, {| buffer := [44]; read_index := 0; write_index := 1;
                      size := 1; mask := 1 |}).
Proof. reflexivity. Qed.

Example init_statuses :
  (λ sz, fst (fifo_init (fresh [] 0) [] sz)) <$> [0; 1; 2; 3; 64; 128; 129; 255]
  = [FIFO_ERROR; FIFO_OK; FIFO_OK; FIFO_ERROR; FIFO_OK; FIFO_OK;
     FIFO_ERROR; FIFO_ERROR].
Proof. reflexivity. Qed.

(** * Properties *)

(** ** Index arithmetic *)

Lemma capacity_pos n : capacity n → 1 <= n <= 128.
Proof.
  intros (k & Hk & ->). split.
  - assert (0 < 2 ^ k) by (apply Z.pow_pos_nonneg; lia). lia.
  - change 128 with (2 ^ 7). apply Z.pow_le_mono_r; lia.
Qed.

Lemma land_mask n x : capacity n → Z.land x (2 * n - 1) = x mod (2 * n).
Proof.
  intros (k & Hk & ->).
  replace (2 * 2 ^ k - 1) with (Z.ones (k + 1)).
  - rewrite Z.land_ones by lia. by rewrite Z.pow_add_r, Z.pow_1_r, Z.mul_comm by lia.
  - rewrite Z.ones_equiv, Z.pow_add_r, Z.pow_1_r by lia. lia.
Qed.

Lemma shiftr_mask n : capacity n → Z.shiftr (2 * n - 1) 1 = n - 1.
Proof.
  intros Hn. apply capacity_pos in Hn.
  rewrite Z.shiftr_div_pow2 by lia. change (2 ^ 1) with 2.
  symmetry. apply Z.div_unique with (r := 1); lia.
Qed.

Lemma land_slot n x : capacity n → Z.land x (n - 1) = x mod n.
Proof.
  intros (k & Hk & ->).
  replace (2 ^ k - 1) with (Z.ones k) by (rewrite Z.ones_equiv; lia).
  by rewrite Z.land_ones by lia.
Qed.

Lemma to_uint8_small x : 0 <= x < 256 → to_uint8 x = x.
Proof. intros Hx. unfold to_uint8, to_uint. apply Z.mod_small. simpl. lia. Qed.

Lemma to_uint8_mod n x : capacity n → to_uint8 (x mod (2 * n)) = x mod (2 * n).
Proof.
  intros Hn. apply capacity_pos in Hn. apply to_uint8_small.
  pose proof (Z.mod_pos_bound x (2 * n)). lia.
Qed.

(** Reduction modulo [2 * n] does not change the slot. *)
Lemma mod_double_mod n x : 0 < n → (x mod (2 * n)) mod n = x mod n.
Proof.
  intros Hn. rewrite (Z.mul_comm 2 n).
  rewrite Z.rem_mul_r by lia.
  rewrite (Z.mul_comm n), Z.mod_add by lia. apply Z.mod_mod. lia.
Qed.

(** Fewer than [n] consecutive indices fall into different slots. *)
Lemma slots_distinct n r i j :
  0 < n → 0 <= i < j → j < n → (r + i) mod n ≠ (r + j) mod n.
Proof.
  intros Hn Hij Hj Heq.
  assert (Hd : (j - i) mod n = 0).
  { replace (j - i) with ((r + j) - (r + i)) by lia.
    rewrite Zminus_mod, Heq, Z.sub_diag. by apply Z.mod_0_l; lia. }
  rewrite Z.mod_small in Hd by lia. lia.
Qed.

Lemma succ_mod_diff m a b u :
  0 < m → (a - b) mod m = u → u + 1 < m → ((a + 1) mod m - b) mod m = u + 1.
Proof.
  intros Hm Hu Hlt.
  rewrite Zminus_mod_idemp_l.
  replace (a + 1 - b) with ((a - b) + 1) by lia.
  rewrite <- Zplus_mod_idemp_l, Hu. apply Z.mod_small.
  pose proof (Z.mod_pos_bound (a - b) m). lia.
Qed.

Lemma diff_succ_mod m a b u :
  0 < m → (a - b) mod m = u → 0 < u → (a - (b + 1) mod m) mod m = u - 1.
Proof.
  intros Hm Hu Hlt.
  rewrite Zminus_mod_idemp_r.
  replace (a - (b + 1)) with ((a - b) - 1) by lia.
  rewrite <- Zminus_mod_idemp_l, Hu. apply Z.mod_small.
  pose proof (Z.mod_pos_bound (a - b) m). lia.
Qed.

Lemma diff_mod_zero m a b :
  0 < m → 0 <= a < m → 0 <= b < m → (a - b) mod m = 0 ↔ a = b.
Proof.
  intros Hm Ha Hb. split; [|intros ->; by rewrite Z.sub_diag, Z.mod_0_l by lia].
  intros H0. destruct (Z.lt_trichotomy a b) as [Hlt|[->|Hgt]]; [|done|].
  - replace (a - b) with ((a - b + m) + (-1) * m) in H0 by lia.
    rewrite Z.mod_add, Z.mod_small in H0 by lia. lia.
  - rewrite Z.mod_small in H0 by lia. lia.
Qed.

(** The write index is [used] positions after the read index. *)
Lemma write_slot n r w :
  0 < n → w mod n = (r + (w - r) mod (2 * n)) mod n.
Proof.
  intros Hn.
  rewrite <- (mod_double_mod n (r + _)) by done.
  rewrite Zplus_mod_idemp_r.
  replace (r + (w - r)) with w by lia.
  by rewrite mod_double_mod.
Qed.

(** ** The queries under the invariant *)

Section invariant.
Variable n : Z.
Hypothesis Hn : capacity n.

Lemma used_spec f :
  fifo_inv n f →
  fifo_get_used_size f = (write_index f - read_index f) mod (2 * n).
Proof.
  intros [_ Hm _ _ _ _]. unfold fifo_get_used_size.
  by rewrite Hm, land_mask, to_uint8_mod.
Qed.

Lemma used_bounds f : fifo_inv n f → 0 <= fifo_get_used_size f <= n.
Proof.
  intros Hf. rewrite (used_spec f Hf). pose proof (capacity_pos n Hn).
  pose proof (Z.mod_pos_bound (write_index f - read_index f) (2 * n)).
  pose proof (inv_used n f Hf). lia.
Qed.

Lemma free_spec f :
  fifo_inv n f → fifo_get_free_size f = n - fifo_get_used_size f.
Proof.
  intros Hf. unfold fifo_get_free_size. rewrite (inv_size n f Hf).
  pose proof (used_bounds f Hf). pose proof (capacity_pos n Hn).
  apply to_uint8_small. lia.
Qed.

Lemma is_empty_spec f :
  fifo_inv n f → fifo_is_empty f = true ↔ fifo_get_used_size f = 0.
Proof.
  intros Hf. rewrite (used_spec f Hf). unfold fifo_is_empty.
  rewrite Z.eqb_eq. pose proof (capacity_pos n Hn).
  destruct Hf as [_ _ Hr Hw _ _]. rewrite diff_mod_zero by lia. done.
Qed.

Lemma is_full_spec f :
  fifo_inv n f → fifo_is_full f = true ↔ fifo_get_used_size f = n.
Proof.
  intros Hf. unfold fifo_is_full. by rewrite (inv_size n f Hf), Z.eqb_eq.
Qed.

Lemma fresh_inv buf : n <= Z.of_nat (length buf) → fifo_inv n (fresh buf n).
Proof.
  intros Hbuf. pose proof (capacity_pos n Hn).
  split; simpl; try done; try lia.
  rewrite Z.mod_0_l; lia.
Qed.

Lemma flush_inv f : fifo_inv n f → fifo_inv n (fifo_flush f).
Proof.
  intros [Hs Hm _ _ _ Hb]. pose proof (capacity_pos n Hn).
  split; simpl; try done; try lia.
  rewrite Z.mod_0_l; lia.
Qed.

(** The slot an index designates lies inside the array. *)
Lemma slot_in_bounds f x :
  fifo_inv n f → in_bounds (buffer f) (x mod n) = true.
Proof.
  intros Hf. pose proof (capacity_pos n Hn).
  pose proof (Z.mod_pos_bound x n). pose proof (inv_buffer n f Hf).
  unfold in_bounds. apply andb_true_intro. split; [apply Z.leb_le|apply Z.ltb_lt]; lia.
Qed.

Lemma length_contents f :
  length (contents f) = Z.to_nat (fifo_get_used_size f).
Proof. unfold contents. by rewrite length_fmap, length_seq. Qed.

Lemma contents_lookup f (i : nat) :
  Z.of_nat i < fifo_get_used_size f → contents f !! i = Some (cell f i).
Proof.
  intros Hi. unfold contents. rewrite list_lookup_fmap, lookup_seq_lt by lia. done.
Qed.

End invariant.

(** ** Push and pull under the invariant *)

Section operations.
Variable n : Z.
Hypothesis Hn : capacity n.
Variable w : width.

Lemma push_nocheck_eq f v :
  fifo_inv n f → fifo_push_nocheck w f v = Some (after_push n w f v).
Proof.
  intros Hf. unfold fifo_push_nocheck, after_push, store.
  rewrite (inv_mask n f Hf), (shiftr_mask n), (land_slot n), (land_mask n) by done.
  rewrite (slot_in_bounds n Hn f _ Hf). simpl.
  by rewrite to_uint8_mod.
Qed.

Lemma push_eq f v :
  fifo_inv n f → fifo_is_full f = false →
  fifo_push w f v = Some (FIFO_OK, after_push n w f v).
Proof.
  intros Hf Hfull. unfold fifo_push, after_push, store. rewrite Hfull.
  rewrite (inv_mask n f Hf), (shiftr_mask n), (land_slot n), (land_mask n) by done.
  rewrite (slot_in_bounds n Hn f _ Hf). simpl.
  by rewrite to_uint8_mod.
Qed.

Lemma pull_nocheck_eq f :
  fifo_inv n f →
  fifo_pull_nocheck w f
  = Some (nth (Z.to_nat (read_index f mod n)) (buffer f) 0, after_pull n f).
Proof.
  intros Hf. unfold fifo_pull_nocheck, after_pull, load.
  rewrite (inv_mask n f Hf), (shiftr_mask n), (land_slot n), (land_mask n) by done.
  rewrite (slot_in_bounds n Hn f _ Hf).
  pose proof (slot_in_bounds n Hn f (read_index f) Hf) as Hb.
  unfold in_bounds in Hb. apply andb_prop in Hb as [_ Hb%Z.ltb_lt].
  destruct (lookup_lt_is_Some_2 (buffer f) (Z.to_nat (read_index f mod n)))
    as [x Hx].
  { pose proof (capacity_pos n Hn).
    pose proof (Z.mod_pos_bound (read_index f) n). lia. }
  rewrite Hx. simpl. by rewrite to_uint8_mod, (nth_lookup_Some _ _ _ x).
Qed.

Lemma pull_eq f item :
  fifo_inv n f → fifo_is_empty f = false →
  fifo_pull w f item
  = Some (FIFO_OK, nth (Z.to_nat (read_index f mod n)) (buffer f) 0,
          after_pull n f).
Proof.
  intros Hf Hne. pose proof (pull_nocheck_eq f Hf) as Hp.
  unfold fifo_pull. rewrite Hne. unfold fifo_pull_nocheck in Hp.
  destruct (load _ _) as [x|]; simpl in *; [|done].
  injection Hp as Hx Hf'. by rewrite Hx, Hf'.
Qed.

Lemma peek_eq f :
  fifo_inv n f →
  fifo_peek w f = Some (nth (Z.to_nat (read_index f mod n)) (buffer f) 0).
Proof.
  intros Hf. pose proof (pull_nocheck_eq f Hf) as Hp.
  unfold fifo_peek. unfold fifo_pull_nocheck in Hp.
  destruct (load _ _) as [x|]; simpl in *; [|done].
  injection Hp as Hx _. by rewrite Hx.
Qed.

Lemma not_full_lt f :
  fifo_inv n f → fifo_is_full f = false → fifo_get_used_size f < n.
Proof.
  intros Hf Hfull. pose proof (used_bounds n Hn f Hf).
  assert (fifo_get_used_size f ≠ n); [|lia].
  intros Hu%(is_full_spec n f Hf). congruence.
Qed.

Lemma not_empty_pos f :
  fifo_inv n f → fifo_is_empty f = false → 0 < fifo_get_used_size f.
Proof.
  intros Hf Hne. pose proof (used_bounds n Hn f Hf).
  assert (fifo_get_used_size f ≠ 0); [|lia].
  intros Hu%(is_empty_spec n Hn f Hf). congruence.
Qed.

Lemma after_push_inv f v :
  fifo_inv n f → fifo_get_used_size f < n →
  fifo_inv n (after_push n w f v)
  ∧ fifo_get_used_size (after_push n w f v) = fifo_get_used_size f + 1.
Proof.
  intros Hf Hlt. pose proof (capacity_pos n Hn).
  rewrite (used_spec n Hn f Hf) in Hlt.
  assert (Hu : (write_index (after_push n w f v) - read_index (after_push n w f v))
               mod (2 * n)
               = (write_index f - read_index f) mod (2 * n) + 1).
  { simpl. apply succ_mod_diff; [lia|done|lia]. }
  assert (Hinv : fifo_inv n (after_push n w f v)).
  { destruct Hf as [Hs Hm Hr Hw _ Hb]. split; try done.
    - simpl. apply Z.mod_pos_bound. lia.
    - rewrite Hu. lia.
    - simpl. by rewrite length_insert. }
  split; [done|]. by rewrite (used_spec n Hn _ Hinv), (used_spec n Hn f Hf).
Qed.

Lemma after_pull_inv f :
  fifo_inv n f → 0 < fifo_get_used_size f →
  fifo_inv n (after_pull n f)
  ∧ fifo_get_used_size (after_pull n f) = fifo_get_used_size f - 1.
Proof.
  intros Hf Hlt. pose proof (capacity_pos n Hn).
  pose proof (used_bounds n Hn f Hf) as Hb.
  rewrite (used_spec n Hn f Hf) in Hlt, Hb.
  assert (Hu : (write_index (after_pull n f) - read_index (after_pull n f))
               mod (2 * n)
               = (write_index f - read_index f) mod (2 * n) - 1).
  { simpl. apply diff_succ_mod; [lia|done|lia]. }
  assert (Hinv : fifo_inv n (after_pull n f)).
  { destruct Hf as [Hs Hm Hr Hw _ Hl]. split; try done.
    - simpl. apply Z.mod_pos_bound. lia.
    - rewrite Hu. lia. }
  split; [done|]. by rewrite (used_spec n Hn _ Hinv), (used_spec n Hn f Hf).
Qed.

End operations.

(** ** The elements held, across a push and a pull *)

Section contents.
Variable n : Z.
Hypothesis Hn : capacity n.
Variable w : width.

Lemma contents_fresh buf : contents (fresh buf n) = [].
Proof. reflexivity. Qed.

Lemma contents_after_push f v :
  fifo_inv n f → fifo_get_used_size f < n →
  contents (after_push n w f v) = contents f ++ [stored w v].
Proof.
  intros Hf Hlt. pose proof (capacity_pos n Hn) as Hpos.
  destruct (after_push_inv n Hn w f v Hf Hlt) as [Hinv Hu].
  pose proof (used_bounds n Hn f Hf) as Hb.
  pose proof (inv_buffer n f Hf) as Hlen.
  assert (Hslot : write_index f mod n = (read_index f + fifo_get_used_size f) mod n).
  { rewrite (used_spec n Hn f Hf). apply write_slot. lia. }
  unfold contents. rewrite Hu.
  replace (Z.to_nat (fifo_get_used_size f + 1))
    with (S (Z.to_nat (fifo_get_used_size f))) by lia.
  rewrite seq_S, fmap_app. simpl. f_equal.
  - apply list_fmap_ext. intros i j [-> Hi]%lookup_seq. simpl.
    unfold cell. simpl. rewrite (inv_size n f Hf).
    rewrite !nth_lookup, list_lookup_insert_ne; [done|].
    rewrite Hslot. intros Heq%Z2Nat.inj.
    + symmetry in Heq. revert Heq. apply slots_distinct; lia.
    + apply Z.mod_pos_bound. lia.
    + apply Z.mod_pos_bound. lia.
  - f_equal. unfold cell. simpl. rewrite (inv_size n f Hf).
    rewrite Z2Nat.id, <- Hslot by lia.
    apply nth_lookup_Some, list_lookup_insert_eq.
    pose proof (Z.mod_pos_bound (write_index f) n). lia.
Qed.

Lemma cell_after_pull f (i : nat) :
  fifo_inv n f → cell (after_pull n f) i = cell f (S i).
Proof.
  intros Hf. pose proof (capacity_pos n Hn) as Hpos.
  unfold cell. simpl. rewrite (inv_size n f Hf).
  assert (Hs : ((read_index f + 1) mod (2 * n) + Z.of_nat i) mod n
               = (read_index f + Z.of_nat (S i)) mod n); [|by rewrite Hs].
  rewrite <- (mod_double_mod n (_ mod _ + _)) by lia.
  rewrite Zplus_mod_idemp_l, mod_double_mod by lia.
  f_equal. lia.
Qed.

Lemma contents_after_pull f :
  fifo_inv n f → 0 < fifo_get_used_size f →
  contents f
  = nth (Z.to_nat (read_index f mod n)) (buffer f) 0 :: contents (after_pull n f).
Proof.
  intros Hf Hlt.
  destruct (after_pull_inv n Hn f Hf Hlt) as [Hinv Hu].
  unfold contents. rewrite Hu.
  replace (Z.to_nat (fifo_get_used_size f))
    with (S (Z.to_nat (fifo_get_used_size f - 1))) by lia.
  simpl. f_equal.
  - unfold cell. rewrite (inv_size n f Hf). do 3 f_equal. simpl. lia.
  - rewrite <- fmap_S_seq, <- list_fmap_compose.
    apply list_fmap_ext. intros i j _. simpl. by rewrite cell_after_pull.
Qed.

Lemma contents_flush f : contents (fifo_flush f) = [].
Proof. reflexivity. Qed.

End contents.

(** ** Every call preserves the invariant *)

Section preservation.
Variable n : Z.
Hypothesis Hn : capacity n.
Variable w : width.

Lemma step_inv f f' : fifo_inv n f → step w f f' → fifo_inv n f'.
Proof.
  intros Hf Hstep. destruct Hstep as [v s f' Hp|item s x f' Hp|v f' Hfull Hp|x f' Hne Hp|].
  - destruct (fifo_is_full f) eqn:Hfull.
    + unfold fifo_push in Hp. rewrite Hfull in Hp. by simplify_eq.
    + rewrite (push_eq n Hn w f v Hf Hfull) in Hp. simplify_eq.
      apply (after_push_inv n Hn w f v Hf). by apply not_full_lt.
  - destruct (fifo_is_empty f) eqn:Hne.
    + unfold fifo_pull in Hp. rewrite Hne in Hp. by simplify_eq.
    + rewrite (pull_eq n Hn w f item Hf Hne) in Hp. simplify_eq.
      apply (after_pull_inv n Hn f Hf). by apply (not_empty_pos n Hn).
  - rewrite (push_nocheck_eq n Hn w f v Hf) in Hp. simplify_eq.
    apply (after_push_inv n Hn w f v Hf). by apply not_full_lt.
  - rewrite (pull_nocheck_eq n Hn w f Hf) in Hp. simplify_eq.
    apply (after_pull_inv n Hn f Hf). by apply (not_empty_pos n Hn).
  - by apply flush_inv.
Qed.

Lemma reachable_inv buf f :
  n <= Z.of_nat (length buf) → reachable w buf n f → fifo_inv n f.
Proof.
  intros Hbuf Hr. induction Hr as [|f f' _ IH Hstep].
  - by apply fresh_inv.
  - by apply (step_inv f).
Qed.

(** Under the invariant no call reads or writes outside the array. *)
Lemma calls_defined f v item :
  fifo_inv n f →
  is_Some (fifo_push w f v) ∧ is_Some (fifo_pull w f item)
  ∧ is_Some (fifo_push_nocheck w f v) ∧ is_Some (fifo_pull_nocheck w f)
  ∧ is_Some (fifo_peek w f).
Proof.
  intros Hf. repeat split.
  - destruct (fifo_is_full f) eqn:Hfull.
    + unfold fifo_push. by rewrite Hfull.
    + by rewrite (push_eq n Hn w f v Hf Hfull).
  - destruct (fifo_is_empty f) eqn:Hne.
    + unfold fifo_pull. by rewrite Hne.
    + by rewrite (pull_eq n Hn w f item Hf Hne).
  - by rewrite (push_nocheck_eq n Hn w f v Hf).
  - by rewrite (pull_nocheck_eq n Hn w f Hf).
  - by rewrite (peek_eq n Hn w f Hf).
Qed.

(** A run of checked calls is a sequence of steps. *)
Lemma run_reachable buf ops : ∀ f item out f' item',
  reachable w buf n f →
  run w ops f item = Some (out, f', item') → reachable w buf n f'.
Proof.
  induction ops as [|[v|] ops IH]; intros f item out f' item' Hr Hrun; simpl in Hrun.
  - by simplify_eq.
  - destruct (fifo_push w f v) as [[s f1]|] eqn:Hp; simpl in Hrun; [|done].
    destruct (run w ops f1 item) as [[[out1 f2] item2]|] eqn:Hrest; simpl in Hrun; [|done].
    simplify_eq. eapply IH; [|done]. eapply reachable_step; [done|].
    by eapply step_push.
  - destruct (fifo_pull w f item) as [[[s item1] f1]|] eqn:Hp; simpl in Hrun; [|done].
    destruct (run w ops f1 item1) as [[[out1 f2] item2]|] eqn:Hrest; simpl in Hrun; [|done].
    simplify_eq. eapply IH; [|done]. eapply reachable_step; [done|].
    by eapply step_pull.
Qed.

End preservation.

(** ** The driver and the queue of the spec, call by call *)

Section simulation.
Variable n : Z.
Hypothesis Hn : capacity n.
Variable w : width.

Lemma used_length_contents f :
  fifo_inv n f → fifo_get_used_size f = Z.of_nat (length (contents f)).
Proof.
  intros Hf. rewrite length_contents. pose proof (used_bounds n Hn f Hf). lia.
Qed.

Lemma push_simulates f v :
  fifo_inv n f →
  ∃ s f', fifo_push w f v = Some (s, f') ∧ fifo_inv n f'
          ∧ queue_push n (contents f) (stored w v) = (s, contents f').
Proof.
  intros Hf. unfold queue_push. rewrite <- (used_length_contents f Hf).
  destruct (fifo_is_full f) eqn:Hfull.
  - exists FIFO_ERROR_OVERFLOW, f. split; [|split; [done|]].
    + unfold fifo_push. by rewrite Hfull.
    + apply (is_full_spec n f Hf) in Hfull. rewrite Hfull, Z.ltb_irrefl. done.
  - pose proof (not_full_lt n Hn f Hf Hfull) as Hlt.
    exists FIFO_OK, (after_push n w f v). split; [by apply push_eq|].
    split; [by apply (after_push_inv n Hn w f v Hf)|].
    apply Z.ltb_lt in Hlt as Hlt'. rewrite Hlt'.
    by rewrite (contents_after_push n Hn w f v Hf Hlt).
Qed.

Lemma pull_simulates f item :
  fifo_inv n f →
  ∃ s item' f', fifo_pull w f item = Some (s, item', f') ∧ fifo_inv n f'
                ∧ queue_pop (contents f) item = (s, item', contents f').
Proof.
  intros Hf. destruct (fifo_is_empty f) eqn:Hne.
  - exists FIFO_ERROR_UNDERFLOW, item, f. split; [|split; [done|]].
    + unfold fifo_pull. by rewrite Hne.
    + apply (is_empty_spec n Hn f Hf) in Hne.
      pose proof (length_contents f) as Hl. rewrite Hne in Hl.
      destruct (contents f); [done|simpl in Hl; lia].
  - pose proof (not_empty_pos n Hn f Hf Hne) as Hlt.
    eexists FIFO_OK, _, (after_pull n f). split; [by apply pull_eq|].
    split; [by apply (after_pull_inv n Hn f Hf)|].
    by rewrite (contents_after_pull n Hn f Hf Hlt).
Qed.

Lemma run_simulates ops : ∀ f item,
  fifo_inv n f →
  ∃ out f' item',
    run w ops f item = Some (out, f', item') ∧ fifo_inv n f'
    ∧ queue_run n (stored_op w <$> ops) (contents f) item = (out, contents f', item').
Proof.
  induction ops as [|[v|] ops IH]; intros f item Hf.
  - by exists [], f, item.
  - destruct (push_simulates f v Hf) as (s & f1 & Hp & Hf1 & Hq).
    destruct (IH f1 item Hf1) as (out & f2 & item2 & Hr & Hf2 & Hq2).
    exists (Pushed s :: out), f2, item2. split; [|split; [done|]].
    + simpl. rewrite Hp. simpl. by rewrite Hr.
    + rewrite fmap_cons. cbn [queue_run stored_op]. by rewrite Hq, Hq2.
  - destruct (pull_simulates f item Hf) as (s & item1 & f1 & Hp & Hf1 & Hq).
    destruct (IH f1 item1 Hf1) as (out & f2 & item2 & Hr & Hf2 & Hq2).
    exists (Pulled s item1 :: out), f2, item2. split; [|split; [done|]].
    + simpl. rewrite Hp. simpl. by rewrite Hr.
    + rewrite fmap_cons. cbn [queue_run stored_op]. by rewrite Hq, Hq2.
Qed.

Lemma stored_element v : is_element w v → stored w v = v.
Proof. intros Hv. unfold stored, to_uint. by apply Z.mod_small. Qed.

Lemma stored_ops ops :
  Forall (pushes_elements w) ops → stored_op w <$> ops = ops.
Proof.
  induction 1 as [|[v|] ops Hv _ IH]; [done|..]; rewrite fmap_cons, IH; [|done].
  simpl. by rewrite (stored_element v Hv).
Qed.

End simulation.

(** ** Runs of pushes and runs of pulls *)

Section bursts.
Variable n : Z.
Hypothesis Hn : capacity n.
Variable w : width.

Lemma lt_not_full f :
  fifo_inv n f → fifo_get_used_size f < n → fifo_is_full f = false.
Proof.
  intros Hf Hlt. destruct (fifo_is_full f) eqn:Hfull; [|done].
  apply (is_full_spec n f Hf) in Hfull. lia.
Qed.

Lemma pos_not_empty f :
  fifo_inv n f → 0 < fifo_get_used_size f → fifo_is_empty f = false.
Proof.
  intros Hf Hlt. destruct (fifo_is_empty f) eqn:Hne; [|done].
  apply (is_empty_spec n Hn f Hf) in Hne. lia.
Qed.

Lemma push_many vs : ∀ f item,
  fifo_inv n f →
  fifo_get_used_size f + Z.of_nat (length vs) <= n →
  ∃ f', run w (Push <$> vs) f item
        = Some (replicate (length vs) (Pushed FIFO_OK), f', item)
        ∧ fifo_inv n f'
        ∧ contents f' = contents f ++ (stored w <$> vs).
Proof.
  induction vs as [|v vs IH]; intros f item Hf Hroom.
  - exists f. by rewrite app_nil_r.
  - simpl in Hroom.
    assert (Hlt : fifo_get_used_size f < n) by lia.
    destruct (after_push_inv n Hn w f v Hf Hlt) as [Hf1 Hu1].
    destruct (IH (after_push n w f v) item Hf1) as (f' & Hrun & Hf' & Hc); [lia|].
    exists f'. split; [|split; [done|]].
    + rewrite fmap_cons. cbn [run].
      rewrite (push_eq n Hn w f v Hf (lt_not_full f Hf Hlt)). simpl.
      by rewrite Hrun.
    + rewrite Hc, (contents_after_push n Hn w f v Hf Hlt), fmap_cons.
      by rewrite <- app_assoc.
Qed.

Lemma pull_many (j : nat) : ∀ f item,
  fifo_inv n f →
  Z.of_nat j <= fifo_get_used_size f →
  ∃ f' item', run w (replicate j Pull) f item
              = Some (Pulled FIFO_OK <$> take j (contents f), f', item')
              ∧ fifo_inv n f'
              ∧ contents f' = drop j (contents f).
Proof.
  induction j as [|j IH]; intros f item Hf Hj.
  - by exists f, item.
  - assert (Hlt : 0 < fifo_get_used_size f) by lia.
    destruct (after_pull_inv n Hn f Hf Hlt) as [Hf1 Hu1].
    pose proof (contents_after_pull n Hn f Hf Hlt) as Hc.
    set (x := nth (Z.to_nat (read_index f mod n)) (buffer f) 0) in *.
    destruct (IH (after_pull n f) x Hf1) as (f' & item' & Hrun & Hf' & Hc'); [lia|].
    exists f', item'. split; [|split; [done|]].
    + cbn [replicate run].
      rewrite (pull_eq n Hn w f item Hf (pos_not_empty f Hf Hlt)). simpl.
      fold x. rewrite Hrun, Hc. done.
    + by rewrite Hc', Hc.
Qed.

End bursts.

(** * The claims *)

Lemma capacity_pow2 k : 0 <= k <= 7 → capacity (2 ^ k).
Proof. intros Hk. by exists k. Qed.

(** C1 (full capacity).  For every capacity [2 ^ k] with [0 <= k <= 7]
    (1, 2, 4, ..., 128), every element width and every array of at least
    that many cells: starting from the freshly initialized descriptor, the
    checked pushes of [2 ^ k] values all return [FIFO_OK]; the FIFO is not
    full after fewer than [2 ^ k] of them and is full after all of them;
    one more checked push returns [FIFO_ERROR_OVERFLOW].  The checked pulls
    then deliver the [2 ^ k] values in the order pushed, each with
    [FIFO_OK]; the FIFO is not empty after fewer than [2 ^ k] pulls and is
    empty after all of them; one more checked pull returns
    [FIFO_ERROR_UNDERFLOW].  The case [k = 7] is the maximum capacity 128. *)
Theorem full_capacity (w : width) (k : Z) (buf vs : list Z) (extra item : Z) :
  0 <= k <= 7 →
  2 ^ k <= Z.of_nat (length buf) →
  Z.of_nat (length vs) = 2 ^ k →
  ∃ f_full f_empty last,
    (∀ j : nat, (j < length vs)%nat →
       ∃ fj, run w (Push <$> take j vs) (fresh buf (2 ^ k)) item
             = Some (replicate j (Pushed FIFO_OK), fj, item)
             ∧ fifo_is_full fj = false)
    ∧ run w (Push <$> vs) (fresh buf (2 ^ k)) item
      = Some (replicate (length vs) (Pushed FIFO_OK), f_full, item)
    ∧ fifo_is_full f_full = true
    ∧ fifo_push w f_full extra = Some (FIFO_ERROR_OVERFLOW, f_full)
    ∧ (∀ j : nat, (j < length vs)%nat →
       ∃ gj itemj, run w (replicate j Pull) f_full item
                   = Some (Pulled FIFO_OK <$> take j (stored w <$> vs), gj, itemj)
                   ∧ fifo_is_empty gj = false)
    ∧ run w (replicate (length vs) Pull) f_full item
      = Some (Pulled FIFO_OK <$> (stored w <$> vs), f_empty, last)
    ∧ fifo_is_empty f_empty = true
    ∧ fifo_pull w f_empty last = Some (FIFO_ERROR_UNDERFLOW, last, f_empty).
Proof.
  intros Hk Hbuf Hlen. set (n := 2 ^ k) in *.
  pose proof (capacity_pow2 k Hk) as Hn. fold n in Hn.
  pose proof (fresh_inv n Hn buf Hbuf) as Hf0.
  assert (Hu0 : fifo_get_used_size (fresh buf n) = 0) by done.
  destruct (push_many n Hn w vs (fresh buf n) item Hf0) as (f_full & Hpush & Hff & Hcf);
    [lia|].
  rewrite (contents_fresh n) in Hcf. simpl in Hcf.
  assert (Huf : fifo_get_used_size f_full = n).
  { by rewrite (used_length_contents n Hn f_full Hff), Hcf, length_fmap. }
  destruct (pull_many n Hn w (length vs) f_full item Hff) as (f_empty & last & Hpull & Hfe & Hce);
    [lia|].
  rewrite Hcf in Hpull, Hce.
  rewrite take_ge in Hpull by (rewrite length_fmap; lia).
  rewrite drop_ge in Hce by (rewrite length_fmap; lia).
  assert (Hfull : fifo_is_full f_full = true) by by apply (is_full_spec n f_full Hff).
  assert (Hempty : fifo_is_empty f_empty = true).
  { apply (is_empty_spec n Hn f_empty Hfe).
    by rewrite (used_length_contents n Hn f_empty Hfe), Hce. }
  exists f_full, f_empty, last. repeat split; try done.
  - intros j Hj.
    destruct (push_many n Hn w (take j vs) (fresh buf n) item Hf0) as (fj & Hrun & Hfj & Hcj).
    { rewrite length_take. lia. }
    rewrite length_take, Nat.min_l in Hrun by lia.
    exists fj. split; [done|]. apply (lt_not_full n fj Hfj).
    rewrite (used_length_contents n Hn fj Hfj), Hcj, (contents_fresh n). simpl.
    rewrite length_fmap, length_take. lia.
  - unfold fifo_push. by rewrite Hfull.
  - intros j Hj.
    destruct (pull_many n Hn w j f_full item Hff) as (gj & itemj & Hrun & Hgj & Hcj);
      [lia|].
    rewrite Hcf in Hrun, Hcj.
    exists gj, itemj. split; [done|]. apply (pos_not_empty n Hn gj Hgj).
    rewrite (used_length_contents n Hn gj Hgj), Hcj, length_drop, length_fmap. lia.
  - unfold fifo_pull. by rewrite Hempty.
Qed.

Lemma full_capacity_witness :
  ∃ f_full f_empty,
    run U8 (Push <$> seqZ 0 128) (fresh (replicate 128 0) 128) 0
    = Some (replicate 128 (Pushed FIFO_OK), f_full, 0)
    ∧ fifo_is_full f_full = true
    ∧ fifo_push U8 f_full 255 = Some (FIFO_ERROR_OVERFLOW, f_full)
    ∧ fifo_is_empty f_empty = true.
Proof.
  destruct (full_capacity U8 7 (replicate 128 0) (seqZ 0 128) 255 0)
    as (f_full & f_empty & last & _ & Hrun & Hfull & Hover & _ & _ & Hempty & _).
  - lia.
  - by vm_compute.
  - reflexivity.
  - exists f_full, f_empty.
    split; [exact Hrun|]. split; [exact Hfull|]. split; [exact Hover|exact Hempty].
Defined.

(** C2 (queue semantics).  For every element width, every capacity
    [2 ^ k] with [0 <= k <= 7] and every sequence of checked pushes (of
    values of the element type) and checked pulls issued on the freshly
    initialized descriptor, the calls return what the queue of the spec
    returns, call by call: every successful pull delivers the oldest
    element not yet pulled, and the elements the FIFO holds at the end are
    those the queue holds.  Moreover a value [v] pushed next, when the FIFO
    is not full, is delivered unchanged by the pull that follows the pulls
    of the elements queued before it, and the FIFO is then empty. *)
Theorem fifo_queue_semantics (w : width) (k : Z) (buf : list Z)
    (ops : list op) (item v : Z) :
  0 <= k <= 7 →
  2 ^ k <= Z.of_nat (length buf) →
  Forall (pushes_elements w) ops →
  is_element w v →
  ∃ out f item',
    run w ops (fresh buf (2 ^ k)) item = Some (out, f, item')
    ∧ queue_run (2 ^ k) ops [] item = (out, contents f, item')
    ∧ (fifo_is_full f = false →
       ∃ f1 f2 item2 f3,
         fifo_push w f v = Some (FIFO_OK, f1)
         ∧ run w (replicate (length (contents f)) Pull) f1 item'
           = Some (Pulled FIFO_OK <$> contents f, f2, item2)
         ∧ fifo_pull w f2 item2 = Some (FIFO_OK, v, f3)
         ∧ fifo_is_empty f3 = true).
Proof.
  intros Hk Hbuf Hops Hv. set (n := 2 ^ k) in *.
  pose proof (capacity_pow2 k Hk) as Hn. fold n in Hn.
  pose proof (fresh_inv n Hn buf Hbuf) as Hf0.
  destruct (run_simulates n Hn w ops (fresh buf n) item Hf0)
    as (out & f & item' & Hrun & Hf & Hq).
  rewrite (stored_ops w ops Hops), (contents_fresh n) in Hq.
  exists out, f, item'. split; [done|]. split; [done|].
  intros Hfull.
  pose proof (not_full_lt n Hn f Hf Hfull) as Hlt.
  destruct (after_push_inv n Hn w f v Hf Hlt) as [Hf1 Hu1].
  pose proof (contents_after_push n Hn w f v Hf Hlt) as Hc1.
  rewrite (stored_element w v Hv) in Hc1.
  destruct (pull_many n Hn w (length (contents f)) (after_push n w f v) item' Hf1)
    as (f2 & item2 & Hpull & Hf2 & Hc2).
  { rewrite Hu1, (used_length_contents n Hn f Hf). lia. }
  rewrite Hc1, take_app_length in Hpull. rewrite Hc1, drop_app_length in Hc2.
  assert (Hu2 : fifo_get_used_size f2 = 1).
  { by rewrite (used_length_contents n Hn f2 Hf2), Hc2. }
  assert (Hlt2 : 0 < fifo_get_used_size f2) by lia.
  destruct (after_pull_inv n Hn f2 Hf2 Hlt2) as [Hf3 Hu3].
  pose proof (contents_after_pull n Hn f2 Hf2 Hlt2) as Hc3.
  rewrite Hc2 in Hc3. injection Hc3 as Hx Hc3.
  exists (after_push n w f v), f2, item2, (after_pull n f2).
  split; [by apply push_eq|]. split; [done|]. split.
  - rewrite (pull_eq n Hn w f2 item2 Hf2 (pos_not_empty n Hn f2 Hf2 Hlt2)).
    by rewrite <- Hx.
  - apply (is_empty_spec n Hn _ Hf3). lia.
Qed.

Lemma fifo_queue_semantics_witness :
  ∃ f, run U8 [Push 1; Push 2; Pull; Push 3] (fresh [0; 0; 0; 0] 4) 0
       = Some ([Pushed FIFO_OK; Pushed FIFO_OK; Pulled FIFO_OK 1; Pushed FIFO_OK], f, 1)
       ∧ contents f = [2; 3].
Proof.
  destruct (fifo_queue_semantics U8 2 [0; 0; 0; 0] [Push 1; Push 2; Pull; Push 3] 0 9)
    as (out & f & item' & Hrun & Hq & _).
  - lia.
  - by vm_compute.
  - repeat constructor; vm_compute; congruence.
  - split; vm_compute; congruence.
  - assert (Hl : queue_run (2 ^ 2) [Push 1; Push 2; Pull; Push 3] [] 0
                 = ([Pushed FIFO_OK; Pushed FIFO_OK; Pulled FIFO_OK 1; Pushed FIFO_OK],
                    [2; 3], 1)) by reflexivity.
    rewrite Hl in Hq. injection Hq as Hout Hc Hitem.
    exists f. split; [|by symmetry]. rewrite <- Hout, <- Hitem in Hrun. exact Hrun.
Defined.

(** C3 (occupancy invariant).  In every descriptor reached from the
    freshly initialized one of capacity [2 ^ k] by checked pushes and
    pulls, unchecked ones whose precondition holds, and flushes:
    [fifo_get_used_size] is [(write_index - read_index) mod (2 * 2 ^ k)],
    it lies between 0 and the capacity, and the used and the free sizes
    add up to the capacity. *)
Theorem occupancy_invariant (w : width) (k : Z) (buf : list Z) (f : fifo_desc) :
  0 <= k <= 7 →
  2 ^ k <= Z.of_nat (length buf) →
  reachable w buf (2 ^ k) f →
  fifo_get_used_size f = (write_index f - read_index f) mod (2 * 2 ^ k)
  ∧ 0 <= fifo_get_used_size f <= 2 ^ k
  ∧ fifo_get_used_size f + fifo_get_free_size f = 2 ^ k.
Proof.
  intros Hk Hbuf Hr. pose proof (capacity_pow2 k Hk) as Hn.
  pose proof (reachable_inv _ Hn w buf f Hbuf Hr) as Hf.
  split; [by apply used_spec|]. split; [by apply used_bounds|].
  rewrite (free_spec _ Hn f Hf). lia.
Qed.

Lemma occupancy_invariant_witness :
  ∃ f, fifo_push_uint16 (fresh [0; 0] 2) 515 = Some (FIFO_OK, f)
       ∧ fifo_get_used_size f = 1
       ∧ fifo_get_used_size f + fifo_get_free_size f = 2.
Proof.
  exists {| buffer := [515; 0]; read_index := 0; write_index := 1; size := 2; mask := 3 |}.
  split; [reflexivity|].
  destruct (occupancy_invariant U16 1 [0; 0]
              {| buffer := [515; 0]; read_index := 0; write_index := 1;
                 size := 2; mask := 3 |})
    as (Hu & _ & Hsum).
  - lia.
  - by vm_compute.
  - apply (reachable_step U16 [0; 0] (2 ^ 1) (fresh [0; 0] (2 ^ 1))).
    + apply reachable_init.
    + apply (step_push U16 _ 515 FIFO_OK). reflexivity.
  - split; [exact Hu|exact Hsum].
Defined.

(** C4 (checked calls are atomic).  On every descriptor a checked push
    that finds the FIFO full returns [FIFO_ERROR_OVERFLOW] and a checked
    pull that finds it empty returns [FIFO_ERROR_UNDERFLOW], and both leave
    the descriptor, the array and the [item] cell as they were.  On a
    descriptor that satisfies the invariant of capacity [2 ^ k], a checked
    push that succeeds writes the one slot [write_index mod 2 ^ k] and
    advances [write_index] by one, so that one element is appended; a
    checked pull that succeeds delivers the oldest element and advances
    [read_index] by one, so that one element is removed. *)
Theorem checked_calls_atomic (w : width) (f : fifo_desc) (v item : Z) :
  (fifo_is_full f = true →
   fifo_push w f v = Some (FIFO_ERROR_OVERFLOW, f))
  ∧ (fifo_is_empty f = true →
     fifo_pull w f item = Some (FIFO_ERROR_UNDERFLOW, item, f))
  ∧ (∀ k, 0 <= k <= 7 → fifo_inv (2 ^ k) f →
     (fifo_is_full f = false →
      fifo_push w f v = Some (FIFO_OK, after_push (2 ^ k) w f v)
      ∧ fifo_get_used_size (after_push (2 ^ k) w f v) = fifo_get_used_size f + 1
      ∧ contents (after_push (2 ^ k) w f v) = contents f ++ [stored w v])
     ∧ (fifo_is_empty f = false →
        ∃ x, fifo_pull w f item = Some (FIFO_OK, x, after_pull (2 ^ k) f)
             ∧ fifo_get_used_size (after_pull (2 ^ k) f) = fifo_get_used_size f - 1
             ∧ contents f = x :: contents (after_pull (2 ^ k) f))).
Proof.
  split; [|split].
  - intros Hfull. unfold fifo_push. by rewrite Hfull.
  - intros Hempty. unfold fifo_pull. by rewrite Hempty.
  - intros k Hk Hf. pose proof (capacity_pow2 k Hk) as Hn. split.
    + intros Hfull. pose proof (not_full_lt _ Hn f Hf Hfull) as Hlt.
      split; [by apply push_eq|]. split.
      * by apply after_push_inv.
      * by apply contents_after_push.
    + intros Hne. pose proof (not_empty_pos _ Hn f Hf Hne) as Hlt.
      eexists. split; [by apply pull_eq|]. split.
      * by apply after_pull_inv.
      * by apply contents_after_pull.
Qed.

Lemma checked_calls_atomic_witness :
  fifo_push U8 (mk_fifo_desc [5; 6] 0 2 2 3) 7
  = Some (FIFO_ERROR_OVERFLOW, mk_fifo_desc [5; 6] 0 2 2 3)
  ∧ fifo_pull U8 (mk_fifo_desc [5; 6] 1 1 2 3) 9
    = Some (FIFO_ERROR_UNDERFLOW, 9, mk_fifo_desc [5; 6] 1 1 2 3)
  ∧ fifo_push U8 (mk_fifo_desc [5; 6] 1 2 2 3) 263
    = Some (FIFO_OK, mk_fifo_desc [7; 6] 1 3 2 3)
  ∧ fifo_pull U8 (mk_fifo_desc [5; 6] 1 2 2 3) 9
    = Some (FIFO_OK, 6, mk_fifo_desc [5; 6] 2 2 2 3).
Proof.
  assert (Hinv : fifo_inv (2 ^ 1) (mk_fifo_desc [5; 6] 1 2 2 3)).
  { split; simpl; try reflexivity; try lia. by vm_compute. }
  split; [|split; [|split]].
  - apply (checked_calls_atomic U8 (mk_fifo_desc [5; 6] 0 2 2 3) 7 0). reflexivity.
  - apply (checked_calls_atomic U8 (mk_fifo_desc [5; 6] 1 1 2 3) 0 9). reflexivity.
  - destruct (checked_calls_atomic U8 (mk_fifo_desc [5; 6] 1 2 2 3) 263 9)
      as (_ & _ & Hok).
    destruct (Hok 1 ltac:(lia) Hinv) as [Hpush _].
    destruct (Hpush eq_refl) as [Heq _]. exact Heq.
  - destruct (checked_calls_atomic U8 (mk_fifo_desc [5; 6] 1 2 2 3) 263 9)
      as (_ & _ & Hok).
    destruct (Hok 1 ltac:(lia) Hinv) as [_ Hpull].
    destruct (Hpull eq_refl) as (x & Heq & _ & Hc).
    vm_compute in Hc. injection Hc as Hx. rewrite <- Hx in Heq. exact Heq.
Defined.

(** C5 (empty and full).  In every descriptor reached from the freshly
    initialized one of capacity [2 ^ k]: [fifo_is_empty] holds exactly when
    the used size is 0, which is exactly when the two indices are equal;
    [fifo_is_full] holds exactly when the used size is the capacity; and
    the two never hold together. *)
Theorem empty_full_distinct (w : width) (k : Z) (buf : list Z) (f : fifo_desc) :
  0 <= k <= 7 →
  2 ^ k <= Z.of_nat (length buf) →
  reachable w buf (2 ^ k) f →
  (fifo_is_empty f = true ↔ fifo_get_used_size f = 0)
  ∧ (fifo_is_empty f = true ↔ read_index f = write_index f)
  ∧ (fifo_is_full f = true ↔ fifo_get_used_size f = 2 ^ k)
  ∧ ¬ (fifo_is_empty f = true ∧ fifo_is_full f = true).
Proof.
  intros Hk Hbuf Hr. pose proof (capacity_pow2 k Hk) as Hn.
  pose proof (reachable_inv _ Hn w buf f Hbuf Hr) as Hf.
  pose proof (capacity_pos _ Hn) as Hpos.
  split; [by apply (is_empty_spec _ Hn)|].
  split; [|split; [by apply is_full_spec|]].
  - unfold fifo_is_empty. rewrite Z.eqb_eq. split; congruence.
  - intros [He%(is_empty_spec _ Hn f Hf) Hfull%(is_full_spec _ f Hf)]. lia.
Qed.

Lemma empty_full_distinct_witness :
  fifo_is_empty (fresh [0] 1) = true ∧ fifo_is_full (fresh [0] 1) = false
  ∧ ¬ (fifo_is_empty (fresh [0] 1) = true ∧ fifo_is_full (fresh [0] 1) = true).
Proof.
  split; [reflexivity|]. split; [reflexivity|].
  apply (empty_full_distinct U32 0 [0] (fresh [0] (2 ^ 0))).
  - lia.
  - by vm_compute.
  - apply reachable_init.
Defined.

(** ** Initialization *)

Lemma valid_capacity_spec sz : valid_capacity sz = true ↔ capacity sz.
Proof.
  unfold valid_capacity, is_power_of_two. split.
  - intros [[Hpos%Z.ltb_lt Hpow%Z.eqb_eq]%andb_prop Hle%Z.leb_le]%andb_prop.
    exists (Z.log2 sz). split; [|done]. split; [apply Z.log2_nonneg|].
    change 7 with (Z.log2 128). by apply Z.log2_le_mono.
  - intros Hc. pose proof (capacity_pos sz Hc) as Hb.
    destruct Hc as (k & Hk & ->).
    rewrite Z.log2_pow2 by lia.
    apply andb_true_intro. split; [apply andb_true_intro; split|].
    + apply Z.ltb_lt. lia.
    + by apply Z.eqb_eq.
    + apply Z.leb_le. lia.
Qed.

Lemma capacity_values sz :
  capacity sz ↔ sz ∈ [1; 2; 4; 8; 16; 32; 64; 128].
Proof.
  split.
  - intros (k & Hk & ->).
    assert (Hc : k = 0 ∨ k = 1 ∨ k = 2 ∨ k = 3 ∨ k = 4 ∨ k = 5 ∨ k = 6 ∨ k = 7) by lia.
    apply list_elem_of_In.
    repeat (destruct Hc as [->|Hc]; [vm_compute; tauto|]). subst k. vm_compute. tauto.
  - intros Hin. repeat (apply elem_of_cons in Hin as [->|Hin]).
    + by exists 0.
    + by exists 1.
    + by exists 2.
    + by exists 3.
    + by exists 4.
    + by exists 5.
    + by exists 6.
    + by exists 7.
    + by apply elem_of_nil in Hin.
Qed.

(** C6 (initialization).  For every size that is a power of two among
    1, 2, 4, ..., 128, [fifo_init] returns [FIFO_OK] and leaves a
    descriptor with both indices 0, the size, the mask [2 * size - 1] and
    the array given; for every other size it returns [FIFO_ERROR] and
    leaves the descriptor as it was. *)
Theorem fifo_init_spec (f : fifo_desc) (buf : list Z) (sz : Z) :
  ((sz ∈ [1; 2; 4; 8; 16; 32; 64; 128])
   ∧ (∃ f', fifo_init f buf sz = (FIFO_OK, f')
            ∧ read_index f' = 0 ∧ write_index f' = 0
            ∧ size f' = sz ∧ mask f' = 2 * sz - 1 ∧ buffer f' = buf))
  ∨ ((sz ∉ [1; 2; 4; 8; 16; 32; 64; 128])
     ∧ fifo_init f buf sz = (FIFO_ERROR, f)).
Proof.
  unfold fifo_init. destruct (valid_capacity sz) eqn:Hv.
  - left. apply valid_capacity_spec, capacity_values in Hv.
    split; [done|]. by eexists.
  - right. split; [|done]. intros Hin%capacity_values%valid_capacity_spec.
    congruence.
Qed.

(** The descriptor [fresh buf n] is the one [fifo_init] leaves. *)
Lemma fifo_init_fresh f buf n :
  capacity n → fifo_init f buf n = (FIFO_OK, fresh buf n).
Proof.
  intros Hn%valid_capacity_spec. unfold fifo_init. by rewrite Hn.
Qed.

(** C7 (checked and unchecked calls agree).  For every element width and
    every descriptor: when the FIFO is not full, the checked push returns
    [FIFO_OK] and the descriptor that the unchecked push of the same item
    leaves; when the FIFO is not empty, the checked pull returns [FIFO_OK],
    the element that the unchecked pull returns and the descriptor it
    leaves. *)
Theorem checked_unchecked_agree (w : width) (f : fifo_desc) (v item : Z) :
  (fifo_is_full f = false →
   fifo_push w f v = (λ f', (FIFO_OK, f')) <$> fifo_push_nocheck w f v)
  ∧ (fifo_is_empty f = false →
     fifo_pull w f item
     = (λ r, (FIFO_OK, r.1, r.2)) <$> fifo_pull_nocheck w f).
Proof.
  split.
  - intros Hfull. unfold fifo_push, fifo_push_nocheck. rewrite Hfull.
    by destruct (store w _ _ _).
  - intros Hne. unfold fifo_pull, fifo_pull_nocheck. rewrite Hne.
    by destruct (load _ _).
Qed.

Lemma checked_unchecked_agree_witness :
  fifo_push_uint32 (mk_fifo_desc [5; 6] 1 2 2 3) 7
  = Some (FIFO_OK, mk_fifo_desc [7; 6] 1 3 2 3)
  ∧ fifo_push_uint32_nocheck (mk_fifo_desc [5; 6] 1 2 2 3) 7
    = Some (mk_fifo_desc [7; 6] 1 3 2 3)
  ∧ fifo_pull_uint32 (mk_fifo_desc [5; 6] 1 2 2 3) 0
    = Some (FIFO_OK, 6, mk_fifo_desc [5; 6] 2 2 2 3)
  ∧ fifo_pull_uint32_nocheck (mk_fifo_desc [5; 6] 1 2 2 3)
    = Some (6, mk_fifo_desc [5; 6] 2 2 2 3).
Proof.
  destruct (checked_unchecked_agree U32 (mk_fifo_desc [5; 6] 1 2 2 3) 7 0)
    as [Hpush Hpull].
  split; [|split; [reflexivity|split; [|reflexivity]]].
  - exact (Hpush eq_refl).
  - exact (Hpull eq_refl).
Defined.

(** C8 (flush).  Whatever the descriptor, after [fifo_flush] the FIFO is
    empty: [fifo_is_empty] holds, the used size is 0 and both indices
    are 0. *)
Theorem flush_empties (f : fifo_desc) :
  fifo_is_empty (fifo_flush f) = true
  ∧ fifo_get_used_size (fifo_flush f) = 0
  ∧ read_index (fifo_flush f) = 0
  ∧ write_index (fifo_flush f) = 0.
Proof. by repeat split. Qed.

(** C10 (underflow writes nothing).  For each of the three checked pulls,
    a call on an empty FIFO returns [FIFO_ERROR_UNDERFLOW] and leaves the
    cell its [item] pointer designates, and the descriptor, as they
    were. *)
Theorem pull_underflow_keeps_item (f : fifo_desc) (item : Z) :
  fifo_is_empty f = true →
  fifo_pull_uint8 f item = Some (FIFO_ERROR_UNDERFLOW, item, f)
  ∧ fifo_pull_uint16 f item = Some (FIFO_ERROR_UNDERFLOW, item, f)
  ∧ fifo_pull_uint32 f item = Some (FIFO_ERROR_UNDERFLOW, item, f).
Proof.
  intros Hempty.
  unfold fifo_pull_uint8, fifo_pull_uint16, fifo_pull_uint32, fifo_pull.
  by rewrite Hempty.
Qed.

Lemma pull_underflow_keeps_item_witness :
  fifo_pull_uint8 (mk_fifo_desc [5; 6] 3 3 2 3) 171
  = Some (FIFO_ERROR_UNDERFLOW, 171, mk_fifo_desc [5; 6] 3 3 2 3).
Proof.
  apply (pull_underflow_keeps_item (mk_fifo_desc [5; 6] 3 3 2 3) 171).
  reflexivity.
Defined.

(** * Further properties of the FIFO driver *)

Lemma after_push_frame n w f v :
  0 < n →
  length (buffer (after_push n w f v)) = length (buffer f)
  ∧ drop (Z.to_nat n) (buffer (after_push n w f v)) = drop (Z.to_nat n) (buffer f).
Proof.
  intros Hn. simpl. split; [apply length_insert|].
  apply drop_insert_lt. pose proof (Z.mod_pos_bound (write_index f) n). lia.
Qed.

Lemma step_frame n w f f' :
  capacity n → fifo_inv n f → step w f f' →
  length (buffer f') = length (buffer f)
  ∧ drop (Z.to_nat n) (buffer f') = drop (Z.to_nat n) (buffer f).
Proof.
  intros Hn Hf Hstep. pose proof (capacity_pos n Hn) as Hpos.
  destruct Hstep as [v s f' Hp|item s x f' Hp|v f' Hfull Hp|x f' Hne Hp|].
  - destruct (fifo_is_full f) eqn:Hfull.
    + unfold fifo_push in Hp. rewrite Hfull in Hp. by simplify_eq.
    + rewrite (push_eq n Hn w f v Hf Hfull) in Hp. simplify_eq.
      apply after_push_frame. lia.
  - destruct (fifo_is_empty f) eqn:Hne.
    + unfold fifo_pull in Hp. rewrite Hne in Hp. by simplify_eq.
    + rewrite (pull_eq n Hn w f item Hf Hne) in Hp. by simplify_eq.
  - rewrite (push_nocheck_eq n Hn w f v Hf) in Hp. simplify_eq.
    apply after_push_frame. lia.
  - rewrite (pull_nocheck_eq n Hn w f Hf) in Hp. by simplify_eq.
  - done.
Qed.

Lemma reachable_frame n w buf f :
  capacity n → n <= Z.of_nat (length buf) → reachable w buf n f →
  length (buffer f) = length buf
  ∧ drop (Z.to_nat n) (buffer f) = drop (Z.to_nat n) buf.
Proof.
  intros Hn Hbuf Hr. induction Hr as [|f f' Hr IH Hstep]; [done|].
  pose proof (reachable_inv n Hn w buf f Hbuf Hr) as Hf.
  destruct (step_frame n w f f' Hn Hf Hstep) as [Hl Hd].
  destruct IH as [IHl IHd]. split; congruence.
Qed.

(** X1 (memory safety).  On every descriptor reached from the freshly
    initialized one of capacity [2 ^ k], over an array of at least [2 ^ k]
    cells, every function of the driver stays inside the array: the five
    calls that access it are defined.  The array keeps its length, and the
    cells from index [2 ^ k] on are never written. *)
Theorem reachable_memory_safe (w : width) (k : Z) (buf : list Z)
    (f : fifo_desc) (v item : Z) :
  0 <= k <= 7 →
  2 ^ k <= Z.of_nat (length buf) →
  reachable w buf (2 ^ k) f →
  is_Some (fifo_push w f v) ∧ is_Some (fifo_pull w f item)
  ∧ is_Some (fifo_push_nocheck w f v) ∧ is_Some (fifo_pull_nocheck w f)
  ∧ is_Some (fifo_peek w f)
  ∧ length (buffer f) = length buf
  ∧ drop (Z.to_nat (2 ^ k)) (buffer f) = drop (Z.to_nat (2 ^ k)) buf.
Proof.
  intros Hk Hbuf Hr. pose proof (capacity_pow2 k Hk) as Hn.
  pose proof (reachable_inv _ Hn w buf f Hbuf Hr) as Hf.
  destruct (calls_defined _ Hn w f v item Hf) as (H1 & H2 & H3 & H4 & H5).
  destruct (reachable_frame _ w buf f Hn Hbuf Hr) as [Hl Hd].
  repeat split; assumption.
Qed.

Lemma reachable_memory_safe_witness :
  is_Some (fifo_pull_nocheck U8 (mk_fifo_desc [5; 0; 9] 0 1 2 3))
  ∧ drop 2 (buffer (mk_fifo_desc [5; 0; 9] 0 1 2 3)) = [9].
Proof.
  destruct (reachable_memory_safe U8 1 [0; 0; 9] (mk_fifo_desc [5; 0; 9] 0 1 2 3) 0 0)
    as (_ & _ & _ & Hpull & _ & _ & Hdrop).
  - lia.
  - by vm_compute.
  - apply (reachable_step U8 [0; 0; 9] (2 ^ 1) (fresh [0; 0; 9] (2 ^ 1))).
    + apply reachable_init.
    + apply (step_push U8 _ 5 FIFO_OK). reflexivity.
  - split; [exact Hpull|exact Hdrop].
Defined.

(** X2 (the descriptor's fields).  On every reachable descriptor the size
    and the mask are those set at initialization, and both indices lie in
    [0, 2 * size), hence are values of [uint8_t]. *)
Theorem reachable_fields (w : width) (k : Z) (buf : list Z) (f : fifo_desc) :
  0 <= k <= 7 →
  2 ^ k <= Z.of_nat (length buf) →
  reachable w buf (2 ^ k) f →
  size f = 2 ^ k ∧ mask f = 2 * 2 ^ k - 1
  ∧ 0 <= read_index f < 2 * size f ∧ 0 <= write_index f < 2 * size f
  ∧ to_uint8 (read_index f) = read_index f
  ∧ to_uint8 (write_index f) = write_index f
  ∧ to_uint8 (mask f) = mask f.
Proof.
  intros Hk Hbuf Hr. pose proof (capacity_pow2 k Hk) as Hn.
  pose proof (capacity_pos _ Hn) as Hpos.
  destruct (reachable_inv _ Hn w buf f Hbuf Hr) as [Hs Hm Hri Hwi _ _].
  rewrite Hs. repeat split; try done; try lia; apply to_uint8_small; lia.
Qed.

Lemma reachable_fields_witness :
  size (fifo_flush (fresh [0; 0] 2)) = 2 ∧ mask (fifo_flush (fresh [0; 0] 2)) = 3.
Proof.
  destruct (reachable_fields U16 1 [0; 0] (fifo_flush (fresh [0; 0] (2 ^ 1))))
    as (Hs & Hm & _).
  - lia.
  - by vm_compute.
  - apply (reachable_step U16 [0; 0] (2 ^ 1) (fresh [0; 0] (2 ^ 1))).
    + apply reachable_init.
    + apply step_flush.
  - split; [exact Hs|exact Hm].
Defined.

(** X3 (peek).  On a reachable descriptor whose FIFO is not empty,
    [fifo_peek] returns the oldest element held, which is the element the
    next pull, checked or not, delivers. *)
Theorem peek_is_next_pull (w : width) (k : Z) (buf : list Z)
    (f : fifo_desc) (item : Z) :
  0 <= k <= 7 →
  2 ^ k <= Z.of_nat (length buf) →
  reachable w buf (2 ^ k) f →
  fifo_is_empty f = false →
  ∃ x f', fifo_peek w f = Some x
          ∧ head (contents f) = Some x
          ∧ fifo_pull w f item = Some (FIFO_OK, x, f')
          ∧ fifo_pull_nocheck w f = Some (x, f').
Proof.
  intros Hk Hbuf Hr Hne. pose proof (capacity_pow2 k Hk) as Hn.
  pose proof (reachable_inv _ Hn w buf f Hbuf Hr) as Hf.
  pose proof (not_empty_pos _ Hn f Hf Hne) as Hlt.
  eexists _, _. split; [by apply peek_eq|]. split.
  - by rewrite (contents_after_pull _ Hn f Hf Hlt).
  - split; [by apply pull_eq|by apply pull_nocheck_eq].
Qed.

Lemma peek_is_next_pull_witness :
  ∃ x f', fifo_peek U8 (mk_fifo_desc [5; 0] 0 1 2 3) = Some x
          ∧ fifo_pull U8 (mk_fifo_desc [5; 0] 0 1 2 3) 0 = Some (FIFO_OK, x, f').
Proof.
  destruct (peek_is_next_pull U8 1 [0; 0] (mk_fifo_desc [5; 0] 0 1 2 3) 0)
    as (x & f' & Hpeek & _ & Hpull & _).
  - lia.
  - by vm_compute.
  - apply (reachable_step U8 [0; 0] (2 ^ 1) (fresh [0; 0] (2 ^ 1))).
    + apply reachable_init.
    + apply (step_push U8 _ 5 FIFO_OK). reflexivity.
  - reflexivity.
  - exists x, f'. split; [exact Hpeek|exact Hpull].
Defined.

Lemma write_slot_not_read_slot n f :
  capacity n → fifo_inv n f →
  0 < fifo_get_used_size f < n →
  Z.to_nat (write_index f mod n) ≠ Z.to_nat (read_index f mod n).
Proof.
  intros Hn Hf Hu. pose proof (capacity_pos n Hn) as Hpos.
  rewrite (used_spec n Hn f Hf) in Hu.
  rewrite (write_slot n (read_index f) (write_index f)) by lia.
  intros Heq%Z2Nat.inj; try (apply Z.mod_pos_bound; lia).
  revert Heq. replace (read_index f mod n) with ((read_index f + 0) mod n)
    by (f_equal; lia).
  intros Heq. symmetry in Heq. revert Heq. apply slots_distinct; lia.
Qed.

(** X4 (producer and consumer commute).  On a descriptor that satisfies
    the invariant and whose FIFO is neither empty nor full, a checked push
    followed by a checked pull and the same pull followed by the same push
    both succeed, deliver the same element and leave the same
    descriptor. *)
Theorem push_pull_commute (w : width) (k : Z) (f : fifo_desc) (v item : Z) :
  0 <= k <= 7 →
  fifo_inv (2 ^ k) f →
  fifo_is_empty f = false →
  fifo_is_full f = false →
  ∃ x f',
    run w [Push v; Pull] f item
    = Some ([Pushed FIFO_OK; Pulled FIFO_OK x], f', x)
    ∧ run w [Pull; Push v] f item
      = Some ([Pulled FIFO_OK x; Pushed FIFO_OK], f', x).
Proof.
  intros Hk Hf Hne Hfull. pose proof (capacity_pow2 k Hk) as Hn.
  set (n := 2 ^ k) in *. pose proof (capacity_pos n Hn) as Hpos.
  pose proof (not_empty_pos n Hn f Hf Hne) as Hgt.
  pose proof (not_full_lt n Hn f Hf Hfull) as Hlt.
  destruct (after_push_inv n Hn w f v Hf Hlt) as [Hf1 Hu1].
  destruct (after_pull_inv n Hn f Hf Hgt) as [Hf2 Hu2].
  assert (Hne1 : fifo_is_empty (after_push n w f v) = false).
  { apply (pos_not_empty n Hn _ Hf1). lia. }
  assert (Hfull2 : fifo_is_full (after_pull n f) = false).
  { apply (lt_not_full n _ Hf2). lia. }
  exists (nth (Z.to_nat (read_index f mod n)) (buffer f) 0),
         (after_push n w (after_pull n f) v).
  split.
  - cbn [run]. rewrite (push_eq n Hn w f v Hf Hfull). simpl.
    rewrite (pull_eq n Hn w _ item Hf1 Hne1). simpl.
    rewrite !nth_lookup, list_lookup_insert_ne
      by (apply write_slot_not_read_slot; [done..|lia]).
    done.
  - cbn [run]. rewrite (pull_eq n Hn w f item Hf Hne). simpl.
    by rewrite (push_eq n Hn w _ v Hf2 Hfull2).
Qed.

Lemma push_pull_commute_witness :
  ∃ x f',
    run U8 [Push 7; Pull] (mk_fifo_desc [5; 0] 0 1 2 3) 0
    = Some ([Pushed FIFO_OK; Pulled FIFO_OK x], f', x)
    ∧ run U8 [Pull; Push 7] (mk_fifo_desc [5; 0] 0 1 2 3) 0
      = Some ([Pulled FIFO_OK x; Pushed FIFO_OK], f', x).
Proof.
  apply (push_pull_commute U8 1 (mk_fifo_desc [5; 0] 0 1 2 3) 7 0).
  - lia.
  - split; simpl; try reflexivity; try lia. by vm_compute.
  - reflexivity.
  - reflexivity.
Defined.

(** ** Unchecked calls outside their precondition *)

Lemma used_of_mask n f :
  capacity n → mask f = 2 * n - 1 →
  fifo_get_used_size f = (write_index f - read_index f) mod (2 * n).
Proof.
  intros Hn Hm. unfold fifo_get_used_size.
  by rewrite Hm, land_mask, to_uint8_mod.
Qed.

(** X5 (unchecked push on a full FIFO).  On a descriptor that satisfies
    the invariant and whose FIFO is full, the unchecked push is defined
    and overwrites the slot of the oldest element, which is lost:
    [fifo_peek] then returns the item just pushed.  The used size becomes
    [(size + 1) mod (2 * size)], so that the FIFO is no longer reported
    full. *)
Theorem push_nocheck_on_full (w : width) (k : Z) (f : fifo_desc) (v : Z) :
  0 <= k <= 7 →
  fifo_inv (2 ^ k) f →
  fifo_is_full f = true →
  ∃ f', fifo_push_nocheck w f v = Some f'
        ∧ buffer f' = <[Z.to_nat (read_index f mod 2 ^ k) := stored w v]> (buffer f)
        ∧ read_index f' = read_index f
        ∧ fifo_peek w f' = Some (stored w v)
        ∧ fifo_get_used_size f' = (2 ^ k + 1) mod (2 * 2 ^ k)
        ∧ fifo_is_full f' = false.
Proof.
  intros Hk Hf Hfull. pose proof (capacity_pow2 k Hk) as Hn.
  set (n := 2 ^ k) in *. pose proof (capacity_pos n Hn) as Hpos.
  apply (is_full_spec n f Hf) in Hfull.
  rewrite (used_spec n Hn f Hf) in Hfull.
  assert (Hslot : write_index f mod n = read_index f mod n).
  { rewrite (write_slot n (read_index f) (write_index f)) by lia.
    rewrite Hfull. rewrite <- (Z.mul_1_l n) at 1. apply Z.mod_add. lia. }
  assert (Hu : fifo_get_used_size (after_push n w f v) = (n + 1) mod (2 * n)).
  { rewrite (used_of_mask n _ Hn) by (simpl; apply (inv_mask n f Hf)). simpl.
    rewrite Zminus_mod_idemp_l.
    replace (write_index f + 1 - read_index f)
      with ((write_index f - read_index f) + 1) by lia.
    by rewrite <- Zplus_mod_idemp_l, Hfull. }
  exists (after_push n w f v).
  split; [by apply push_nocheck_eq|]. split; [by simpl; rewrite Hslot|].
  split; [done|]. split; [|split; [done|]].
  - unfold fifo_peek, load. simpl.
    rewrite (inv_mask n f Hf), (shiftr_mask n), (land_slot n) by done.
    pose proof (slot_in_bounds n Hn f (read_index f) Hf) as Hb.
    assert (Hb' : in_bounds (<[Z.to_nat (write_index f mod n) := stored w v]> (buffer f))
                            (read_index f mod n) = true).
    { unfold in_bounds in *. by rewrite length_insert. }
    rewrite Hb', Hslot. apply list_lookup_insert_eq.
    unfold in_bounds in Hb. apply andb_prop in Hb as [_ Hb%Z.ltb_lt].
    pose proof (Z.mod_pos_bound (read_index f) n). lia.
  - unfold fifo_is_full. rewrite Hu. simpl. rewrite (inv_size n f Hf).
    apply Z.eqb_neq. destruct (Z.eq_dec n 1) as [->|Hne]; [done|].
    rewrite Z.mod_small by lia. lia.
Qed.

Lemma push_nocheck_on_full_witness :
  ∃ f', fifo_push_nocheck U8 (mk_fifo_desc [5; 6] 0 2 2 3) 7 = Some f'
        ∧ fifo_peek U8 f' = Some (stored U8 7)
        ∧ fifo_is_full f' = false.
Proof.
  destruct (push_nocheck_on_full U8 1 (mk_fifo_desc [5; 6] 0 2 2 3) 7)
    as (f' & Hp & _ & _ & Hpeek & _ & Hfull).
  - lia.
  - split; by vm_compute.
  - reflexivity.
  - exists f'. split; [exact Hp|]. split; [exact Hpeek|exact Hfull].
Defined.

(** X6 (unchecked pull on an empty FIFO).  On a descriptor that satisfies
    the invariant and whose FIFO is empty, the unchecked pull is defined
    and returns whatever the slot at [read_index] holds; the array is left
    as it was and the used size becomes [2 * size - 1], so that the FIFO
    is no longer reported empty. *)
Theorem pull_nocheck_on_empty (w : width) (k : Z) (f : fifo_desc) :
  0 <= k <= 7 →
  fifo_inv (2 ^ k) f →
  fifo_is_empty f = true →
  ∃ f', fifo_pull_nocheck w f
        = Some (nth (Z.to_nat (read_index f mod 2 ^ k)) (buffer f) 0, f')
        ∧ buffer f' = buffer f
        ∧ write_index f' = write_index f
        ∧ fifo_get_used_size f' = 2 * 2 ^ k - 1
        ∧ fifo_is_empty f' = false.
Proof.
  intros Hk Hf Hempty. pose proof (capacity_pow2 k Hk) as Hn.
  set (n := 2 ^ k) in *. pose proof (capacity_pos n Hn) as Hpos.
  unfold fifo_is_empty in Hempty. apply Z.eqb_eq in Hempty.
  pose proof (inv_read n f Hf) as Hr.
  assert (Hu : fifo_get_used_size (after_pull n f) = 2 * n - 1).
  { rewrite (used_of_mask n _ Hn) by (simpl; apply (inv_mask n f Hf)). simpl.
    rewrite Zminus_mod_idemp_r, Hempty.
    replace (read_index f - (read_index f + 1)) with (2 * n - 1 + (-1) * (2 * n)) by lia.
    rewrite Z.mod_add by lia. apply Z.mod_small. lia. }
  exists (after_pull n f).
  split; [by apply pull_nocheck_eq|]. repeat split; try done.
  unfold fifo_is_empty. apply Z.eqb_neq. simpl. rewrite Hempty.
  destruct (Z.eq_dec (read_index f + 1) (2 * n)) as [Heq|Hne].
  - rewrite Heq, Z.mod_same by lia. lia.
  - rewrite Z.mod_small by lia. lia.
Qed.

Lemma pull_nocheck_on_empty_witness :
  ∃ f', fifo_pull_nocheck U16 (mk_fifo_desc [5; 6] 1 1 2 3) = Some (6, f')
        ∧ fifo_get_used_size f' = 3
        ∧ fifo_is_empty f' = false.
Proof.
  destruct (pull_nocheck_on_empty U16 1 (mk_fifo_desc [5; 6] 1 1 2 3))
    as (f' & Hp & _ & _ & Hu & Hne).
  - lia.
  - split; by vm_compute.
  - reflexivity.
  - exists f'. split; [exact Hp|]. split; [exact Hu|exact Hne].
Defined.

(** ** The queries and the calls that follow *)

(** X7 (free size).  On a reachable descriptor, [fifo_get_free_size] is
    the number of checked pushes that are accepted next: that many pushes
    all return [FIFO_OK] and append their items, the FIFO is then full and
    one more push returns [FIFO_ERROR_OVERFLOW]. *)
Theorem free_size_pushes_accepted (w : width) (k : Z) (buf : list Z)
    (f : fifo_desc) (vs : list Z) (extra item : Z) :
  0 <= k <= 7 →
  2 ^ k <= Z.of_nat (length buf) →
  reachable w buf (2 ^ k) f →
  Z.of_nat (length vs) = fifo_get_free_size f →
  ∃ f', run w (Push <$> vs) f item
        = Some (replicate (length vs) (Pushed FIFO_OK), f', item)
        ∧ contents f' = contents f ++ (stored w <$> vs)
        ∧ fifo_is_full f' = true
        ∧ fifo_push w f' extra = Some (FIFO_ERROR_OVERFLOW, f').
Proof.
  intros Hk Hbuf Hr Hlen. pose proof (capacity_pow2 k Hk) as Hn.
  set (n := 2 ^ k) in *.
  pose proof (reachable_inv n Hn w buf f Hbuf Hr) as Hf.
  rewrite (free_spec n Hn f Hf) in Hlen.
  destruct (push_many n Hn w vs f item Hf) as (f' & Hrun & Hf' & Hc); [lia|].
  assert (Hfull : fifo_is_full f' = true).
  { apply (is_full_spec n f' Hf').
    rewrite (used_length_contents n Hn f' Hf'), Hc, length_app, length_fmap.
    rewrite (used_length_contents n Hn f Hf) in Hlen. lia. }
  exists f'. repeat split; try done. unfold fifo_push. by rewrite Hfull.
Qed.

Lemma free_size_pushes_accepted_witness :
  ∃ f', run U8 (Push <$> [7; 8]) (fresh [0; 0] 2) 0
        = Some (replicate 2 (Pushed FIFO_OK), f', 0)
        ∧ fifo_is_full f' = true.
Proof.
  destruct (free_size_pushes_accepted U8 1 [0; 0] (fresh [0; 0] (2 ^ 1)) [7; 8] 9 0)
    as (f' & Hrun & _ & Hfull & _).
  - lia.
  - by vm_compute.
  - apply reachable_init.
  - reflexivity.
  - exists f'. split; [exact Hrun|exact Hfull].
Defined.

(** X8 (used size).  On a reachable descriptor, [fifo_get_used_size] is
    the number of checked pulls that succeed next: that many pulls all
    return [FIFO_OK] and deliver the elements held, oldest first; the FIFO
    is then empty and one more pull returns [FIFO_ERROR_UNDERFLOW]. *)
Theorem used_size_pulls_succeed (w : width) (k : Z) (buf : list Z)
    (f : fifo_desc) (item : Z) :
  0 <= k <= 7 →
  2 ^ k <= Z.of_nat (length buf) →
  reachable w buf (2 ^ k) f →
  ∃ f' last,
    run w (replicate (Z.to_nat (fifo_get_used_size f)) Pull) f item
    = Some (Pulled FIFO_OK <$> contents f, f', last)
    ∧ fifo_is_empty f' = true
    ∧ fifo_pull w f' last = Some (FIFO_ERROR_UNDERFLOW, last, f').
Proof.
  intros Hk Hbuf Hr. pose proof (capacity_pow2 k Hk) as Hn.
  set (n := 2 ^ k) in *.
  pose proof (reachable_inv n Hn w buf f Hbuf Hr) as Hf.
  pose proof (used_bounds n Hn f Hf) as Hb.
  destruct (pull_many n Hn w (Z.to_nat (fifo_get_used_size f)) f item Hf)
    as (f' & last & Hrun & Hf' & Hc); [lia|].
  rewrite take_ge in Hrun by (rewrite length_contents; lia).
  rewrite drop_ge in Hc by (rewrite length_contents; lia).
  assert (Hempty : fifo_is_empty f' = true).
  { apply (is_empty_spec n Hn f' Hf').
    by rewrite (used_length_contents n Hn f' Hf'), Hc. }
  exists f', last. repeat split; try done. unfold fifo_pull. by rewrite Hempty.
Qed.

Lemma used_size_pulls_succeed_witness :
  ∃ f' last,
    run U8 (replicate (Z.to_nat (fifo_get_used_size (mk_fifo_desc [5; 0] 0 1 2 3))) Pull)
        (mk_fifo_desc [5; 0] 0 1 2 3) 0
    = Some (Pulled FIFO_OK <$> contents (mk_fifo_desc [5; 0] 0 1 2 3), f', last)
    ∧ fifo_is_empty f' = true.
Proof.
  destruct (used_size_pulls_succeed U8 1 [0; 0] (mk_fifo_desc [5; 0] 0 1 2 3) 0)
    as (f' & last & Hrun & Hempty & _).
  - lia.
  - by vm_compute.
  - apply (reachable_step U8 [0; 0] (2 ^ 1) (fresh [0; 0] (2 ^ 1))).
    + apply reachable_init.
    + apply (step_push U8 _ 5 FIFO_OK). reflexivity.
  - exists f', last. split; [exact Hrun|exact Hempty].
Defined.

(** ** Counting the calls of a run *)

Lemma queue_run_count n ops : ∀ q item out q' item',
  queue_run n ops q item = (out, q', item') →
  Z.of_nat (length q')
  = Z.of_nat (length q) + accepted_pushes out - accepted_pulls out.
Proof.
  unfold accepted_pushes, accepted_pulls.
  induction ops as [|[v|] ops IH]; intros q item out q' item' Hrun; cbn [queue_run] in Hrun.
  - simplify_eq. simpl. lia.
  - destruct (queue_push n q v) as [s q1] eqn:Hp.
    destruct (queue_run n ops q1 item) as [[out1 q2] item2] eqn:Hrest.
    simplify_eq. apply IH in Hrest. unfold queue_push in Hp.
    destruct (Z.of_nat (length q) <? n); simplify_eq; simpl in *.
    + rewrite length_app in Hrest. simpl in Hrest. lia.
    + lia.
  - destruct (queue_pop q item) as [[s item1] q1] eqn:Hp.
    destruct (queue_run n ops q1 item1) as [[out1 q2] item2] eqn:Hrest.
    simplify_eq. apply IH in Hrest. unfold queue_pop in Hp.
    destruct q as [|x q]; simplify_eq; simpl in *; lia.
Qed.

(** X9 (conservation).  After any sequence of checked pushes and pulls on
    the freshly initialized descriptor, the used size is the number of
    pushes that returned [FIFO_OK] minus the number of pulls that returned
    [FIFO_OK]: no element is lost or duplicated. *)
Theorem used_size_counts_calls (w : width) (k : Z) (buf : list Z)
    (ops : list op) (item : Z) :
  0 <= k <= 7 →
  2 ^ k <= Z.of_nat (length buf) →
  ∃ out f item',
    run w ops (fresh buf (2 ^ k)) item = Some (out, f, item')
    ∧ fifo_get_used_size f = accepted_pushes out - accepted_pulls out.
Proof.
  intros Hk Hbuf. pose proof (capacity_pow2 k Hk) as Hn.
  set (n := 2 ^ k) in *.
  pose proof (fresh_inv n Hn buf Hbuf) as Hf0.
  destruct (run_simulates n Hn w ops (fresh buf n) item Hf0)
    as (out & f & item' & Hrun & Hf & Hq).
  exists out, f, item'. split; [done|].
  apply queue_run_count in Hq. rewrite (contents_fresh n) in Hq.
  rewrite (used_length_contents n Hn f Hf). simpl in Hq. lia.
Qed.

Lemma used_size_counts_calls_witness :
  ∃ out f item',
    run U8 [Push 1; Push 2; Push 3; Pull; Pull; Pull; Pull] (fresh [0; 0] 2) 0
    = Some (out, f, item')
    ∧ fifo_get_used_size f = accepted_pushes out - accepted_pulls out.
Proof.
  apply (used_size_counts_calls U8 1 [0; 0]
           [Push 1; Push 2; Push 3; Pull; Pull; Pull; Pull] 0).
  - lia.
  - by vm_compute.
Defined.

(** ** Items wider than the element type *)

Lemma stored_is_element w v : is_element w (stored w v).
Proof.
  unfold is_element, stored, to_uint. apply Z.mod_pos_bound.
  apply Z.pow_pos_nonneg; [lia|]. by destruct w.
Qed.

Lemma queue_run_elements n w ops : ∀ q item out q' item',
  Forall (is_element w) q →
  queue_run n (stored_op w <$> ops) q item = (out, q', item') →
  Forall (delivers_element w) out ∧ Forall (is_element w) q'.
Proof.
  induction ops as [|[v|] ops IH]; intros q item out q' item' Hq Hrun;
    rewrite ?fmap_cons in Hrun; cbn [queue_run stored_op] in Hrun.
  - simpl in Hrun. simplify_eq. by split.
  - destruct (queue_push n q (stored w v)) as [s q1] eqn:Hp.
    destruct (queue_run n (stored_op w <$> ops) q1 item) as [[out1 q2] item2] eqn:Hrest.
    simplify_eq. unfold queue_push in Hp.
    assert (Hq1 : Forall (is_element w) q1).
    { destruct (Z.of_nat (length q) <? n); simplify_eq; [|done].
      apply Forall_app_2; [done|]. apply Forall_cons. split; [|done].
      apply stored_is_element. }
    destruct (IH _ _ _ _ _ Hq1 Hrest) as [Hout Hq'].
    split; [|done]. by apply Forall_cons.
  - destruct (queue_pop q item) as [[s item1] q1] eqn:Hp.
    destruct (queue_run n (stored_op w <$> ops) q1 item1) as [[out1 q2] item2] eqn:Hrest.
    simplify_eq. unfold queue_pop in Hp.
    destruct q as [|x q]; simplify_eq.
    + destruct (IH _ _ _ _ _ Hq Hrest) as [Hout Hq'].
      split; [|done]. by apply Forall_cons.
    + apply Forall_cons in Hq as [Hx Hq].
      destruct (IH _ _ _ _ _ Hq Hrest) as [Hout Hq'].
      split; [|done]. by apply Forall_cons.
Qed.

(** X10 (items are stored modulo the element width).  The pushes take a
    32-bit item whatever the width of the FIFO.  For any items, a sequence
    of checked pushes and pulls on the freshly initialized descriptor
    returns what the queue of the spec returns when each item is first
    reduced modulo [2 ^ width]; every element a pull delivers, and every
    element the FIFO holds, is a value of the element type. *)
Theorem items_stored_modulo_width (w : width) (k : Z) (buf : list Z)
    (ops : list op) (item : Z) :
  0 <= k <= 7 →
  2 ^ k <= Z.of_nat (length buf) →
  ∃ out f item',
    run w ops (fresh buf (2 ^ k)) item = Some (out, f, item')
    ∧ queue_run (2 ^ k) (stored_op w <$> ops) [] item = (out, contents f, item')
    ∧ Forall (delivers_element w) out
    ∧ Forall (is_element w) (contents f).
Proof.
  intros Hk Hbuf. pose proof (capacity_pow2 k Hk) as Hn.
  set (n := 2 ^ k) in *.
  pose proof (fresh_inv n Hn buf Hbuf) as Hf0.
  destruct (run_simulates n Hn w ops (fresh buf n) item Hf0)
    as (out & f & item' & Hrun & Hf & Hq).
  rewrite (contents_fresh n) in Hq.
  exists out, f, item'. split; [done|]. split; [done|].
  by apply (queue_run_elements n w ops [] item out (contents f) item').
Qed.

Lemma items_stored_modulo_width_witness :
  ∃ f, run U8 [Push 300; Pull] (fresh [0] 1) 0
       = Some ([Pushed FIFO_OK; Pulled FIFO_OK 44], f, 44).
Proof.
  destruct (items_stored_modulo_width U8 0 [0] [Push 300; Pull] 0)
    as (out & f & item' & Hrun & Hq & _).
  - lia.
  - by vm_compute.
  - assert (Hl : queue_run (2 ^ 0) (stored_op U8 <$> [Push 300; Pull]) [] 0
                 = ([Pushed FIFO_OK; Pulled FIFO_OK 44], [], 44)) by reflexivity.
    rewrite Hl in Hq. injection Hq as Hout _ Hitem.
    exists f. rewrite <- Hout, <- Hitem in Hrun. exact Hrun.
Defined.

(** ** Flush *)

(** X11 (flush discards the elements).  After [fifo_flush] on a reachable
    descriptor, the array is untouched and the driver behaves as on an
    empty queue of the same capacity: any sequence of checked pushes and
    pulls returns what the queue of the spec returns from the empty
    queue. *)
Theorem flush_restarts (w : width) (k : Z) (buf : list Z) (f : fifo_desc)
    (ops : list op) (item : Z) :
  0 <= k <= 7 →
  2 ^ k <= Z.of_nat (length buf) →
  reachable w buf (2 ^ k) f →
  buffer (fifo_flush f) = buffer f
  ∧ ∃ out f' item',
      run w ops (fifo_flush f) item = Some (out, f', item')
      ∧ queue_run (2 ^ k) (stored_op w <$> ops) [] item = (out, contents f', item').
Proof.
  intros Hk Hbuf Hr. pose proof (capacity_pow2 k Hk) as Hn.
  set (n := 2 ^ k) in *.
  pose proof (reachable_inv n Hn w buf f Hbuf Hr) as Hf.
  pose proof (flush_inv n Hn f Hf) as Hf0.
  split; [done|].
  destruct (run_simulates n Hn w ops (fifo_flush f) item Hf0)
    as (out & f' & item' & Hrun & Hf' & Hq).
  exists out, f', item'. split; [done|]. by rewrite (contents_flush f) in Hq.
Qed.

Lemma flush_restarts_witness :
  ∃ out f' item',
    run U8 [Pull; Push 3] (fifo_flush (mk_fifo_desc [5; 0] 0 1 2 3)) 0
    = Some (out, f', item')
    ∧ queue_run (2 ^ 1) (stored_op U8 <$> [Pull; Push 3]) [] 0
      = (out, contents f', item').
Proof.
  apply (flush_restarts U8 1 [0; 0] (mk_fifo_desc [5; 0] 0 1 2 3) [Pull; Push 3] 0).
  - lia.
  - by vm_compute.
  - apply (reachable_step U8 [0; 0] (2 ^ 1) (fresh [0; 0] (2 ^ 1))).
    + apply reachable_init.
    + apply (step_push U8 _ 5 FIFO_OK). reflexivity.
Defined.

(** * The sampling loop *)

Lemma zero_row (c : Z) :
  0 <= c < CHANNELS →
  zero_buf !! Z.to_nat c = Some (replicate (Z.to_nat MAXBUFFER) 0).
Proof.
  intros Hc. unfold zero_buf. apply lookup_replicate_2.
  unfold CHANNELS in *. lia.
Qed.

Lemma zero_row_in_bounds (p : Z) :
  0 <= p < MAXBUFFER →
  in_bounds (replicate (Z.to_nat MAXBUFFER) 0) p = true.
Proof.
  intros Hp. unfold in_bounds. rewrite length_replicate.
  apply andb_true_intro. split; [apply Z.leb_le|apply Z.ltb_lt]; lia.
Qed.

Lemma load2_zero c p :
  0 <= c < CHANNELS → 0 <= p < MAXBUFFER → load2 zero_buf c p = Some 0.
Proof.
  intros Hc Hp. unfold load2.
  replace (0 <=? c) with true by (symmetry; apply Z.leb_le; lia).
  rewrite (zero_row c Hc). cbn [mbind option_bind]. unfold load.
  rewrite (zero_row_in_bounds p Hp). apply lookup_replicate_2.
  unfold MAXBUFFER in *. lia.
Qed.

Lemma store2_zero c p :
  0 <= c < CHANNELS → 0 <= p < MAXBUFFER → store2 zero_buf c p 0 = Some zero_buf.
Proof.
  intros Hc Hp. unfold store2.
  replace (0 <=? c) with true by (symmetry; apply Z.leb_le; lia).
  rewrite (zero_row c Hc). cbn [mbind option_bind].
  rewrite (zero_row_in_bounds p Hp), insert_replicate.
  f_equal. apply list_insert_id, zero_row. done.
Qed.

(** One interrupt on the array of zeros, with the counters in range. *)
Lemma HFSampleLoop_zero rf c p o :
  0 <= c < CHANNELS → 0 <= p < MAXBUFFER → 0 <= o < OVERSAMPLING →
  ∃ s, HFSampleLoop (mk_sampler zero_buf rf c p o) = Some s
       ∧ buf s = zero_buf
       ∧ railFull s = rf || ((c =? CHANNELS - 1) && (o =? OVERSAMPLING - 1))
       ∧ curChannel s = (if c =? CHANNELS - 1 then 0 else c + 1)
       ∧ overSamplePos s
         = (if c =? CHANNELS - 1
            then if o =? OVERSAMPLING - 1 then 0 else o + 1
            else o)
       ∧ writePos s
         = (if (c =? CHANNELS - 1) && (o =? OVERSAMPLING - 1)
            then if p =? MAXBUFFER - 1 then 0 else p + 1
            else p).
Proof.
  intros Hc Hp Ho. unfold HFSampleLoop. cbn [buf railFull curChannel writePos overSamplePos].
  assert (Hb : (if o =? 0 then store2 zero_buf c p 0
                else old ← load2 zero_buf c p; store2 zero_buf c p (to_int16 (old + 0)))
               = Some zero_buf).
  { destruct (o =? 0); [by apply store2_zero|].
    rewrite (load2_zero c p Hc Hp). cbn [mbind option_bind].
    change (to_int16 (0 + 0)) with 0. by apply store2_zero. }
  rewrite Hb. cbn [mbind option_bind].
  replace (c + 1 =? CHANNELS) with (c =? CHANNELS - 1)
    by (destruct (Z.eqb_spec c (CHANNELS - 1)), (Z.eqb_spec (c + 1) CHANNELS); lia).
  replace (o + 1 =? OVERSAMPLING) with (o =? OVERSAMPLING - 1)
    by (destruct (Z.eqb_spec o (OVERSAMPLING - 1)), (Z.eqb_spec (o + 1) OVERSAMPLING); lia).
  replace (MAXBUFFER <=? p + 1) with (p =? MAXBUFFER - 1)
    by (destruct (Z.eqb_spec p (MAXBUFFER - 1)), (Z.leb_spec MAXBUFFER (p + 1)); lia).
  destruct (c =? CHANNELS - 1); [destruct (o =? OVERSAMPLING - 1)|];
    eexists; (split; [reflexivity|]); cbn [buf railFull curChannel writePos overSamplePos];
    rewrite ?orb_true_r, ?orb_false_r, ?andb_false_r; repeat split; reflexivity.
Qed.

Lemma interrupts_closed_form (k : nat) :
  ∃ s, interrupts k sampler_start = Some s
       ∧ buf s = zero_buf
       ∧ railFull s = (CHANNELS * OVERSAMPLING <=? Z.of_nat k)
       ∧ curChannel s = Z.of_nat k mod CHANNELS
       ∧ overSamplePos s = (Z.of_nat k / CHANNELS) mod OVERSAMPLING
       ∧ writePos s = (Z.of_nat k / (CHANNELS * OVERSAMPLING)) mod MAXBUFFER.
Proof.
  induction k as [|k (s & Hrun & Hb & Hrf & Hc & Ho & Hp)].
  - exists sampler_start. by repeat split.
  - cbn [interrupts]. rewrite Hrun. cbn [mbind option_bind].
    destruct s as [b rf c p o]. simpl in Hb, Hrf, Hc, Ho, Hp. subst b.
    destruct (HFSampleLoop_zero rf c p o) as (s' & Hs' & Hb' & Hrf' & Hc' & Ho' & Hp').
    { subst c. apply Z.mod_pos_bound. done. }
    { subst p. apply Z.mod_pos_bound. done. }
    { subst o. apply Z.mod_pos_bound. done. }
    exists s'. split; [done|]. split; [done|].
    rewrite Hrf', Hc', Ho', Hp'. clear Hs' Hb' Hrf' Hc' Ho' Hp' Hrun.
    unfold CHANNELS, OVERSAMPLING, MAXBUFFER in *.
    change (4 * 4) with 16 in *. change (4 - 1) with 3. change (2048 - 1) with 2047.
    replace (Z.of_nat (S k)) with (Z.of_nat k + 1) by lia.
    set (x := Z.of_nat k) in *. assert (0 <= x) by lia. clearbody x.
    subst rf c o p.
    destruct (Z.eqb_spec (x mod 4) 3) as [Hc3|Hc3];
      destruct (Z.eqb_spec ((x / 4) mod 4) 3) as [Ho3|Ho3];
      destruct (Z.eqb_spec ((x / 16) mod 2048) 2047) as [Hp3|Hp3];
      destruct (Z.leb_spec 16 x); destruct (Z.leb_spec 16 (x + 1));
      cbn [orb andb]; repeat split; try reflexivity;
      try (exfalso; Z.div_mod_to_equations; lia);
      Z.div_mod_to_equations; lia.
Qed.

(** X12 (the counters of the sampling loop).  From the initial globals,
    any number [k] of timer interrupts runs without an access outside the
    sample array, and afterwards [curChannel] is [k mod CHANNELS],
    [overSamplePos] is [(k / CHANNELS) mod OVERSAMPLING] and [writePos] is
    [(k / (CHANNELS * OVERSAMPLING)) mod MAXBUFFER]: the channels are
    visited in turn, [OVERSAMPLING] rounds per position, and the position
    wraps at [MAXBUFFER].  In particular the counters stay inside the
    array bounds, far from the limits of [int]. *)
Theorem sampler_counters (k : nat) :
  ∃ s, interrupts k sampler_start = Some s
       ∧ curChannel s = Z.of_nat k mod CHANNELS
       ∧ overSamplePos s = (Z.of_nat k / CHANNELS) mod OVERSAMPLING
       ∧ writePos s = (Z.of_nat k / (CHANNELS * OVERSAMPLING)) mod MAXBUFFER
       ∧ 0 <= curChannel s < CHANNELS
       ∧ 0 <= overSamplePos s < OVERSAMPLING
       ∧ 0 <= writePos s < MAXBUFFER.
Proof.
  destruct (interrupts_closed_form k) as (s & Hrun & _ & _ & Hc & Ho & Hp).
  exists s. rewrite Hc, Ho, Hp. repeat split; try done; by apply Z.mod_pos_bound.
Qed.

(** X13 (the flag and the samples).  After [k] interrupts from the initial
    globals, [railFull] is set exactly when [k] is at least
    [CHANNELS * OVERSAMPLING], that is once the first position has been
    sampled on every channel in every round, and it is never cleared.  The
    sample array still holds zeros only, as the sample read is the
    constant 0. *)
Theorem sampler_rail_full (k : nat) :
  ∃ s, interrupts k sampler_start = Some s
       ∧ railFull s = (CHANNELS * OVERSAMPLING <=? Z.of_nat k)
       ∧ buf s = zero_buf.
Proof.
  destruct (interrupts_closed_form k) as (s & Hrun & Hb & Hrf & _).
  by exists s.
Qed.

(** The first position is complete after 16 interrupts; the 17th starts
    the next one. *)
Example sampler_after_17 :
  interrupts 17 sampler_start = Some (mk_sampler zero_buf true 1 1 0).
Proof. vm_compute. reflexivity. Qed.
